(** * autothread.h: a thread wrapper that joins or detaches on destruction

    Shallow embedding of [wsp::details::autothread<join>] and
    [wsp::details::autothread<detach>] (threadpool/workspace/autothread.h),
    over a model of the part of [std::thread] the header calls
    ([joinable], [join], [detach], [get_id], move construction and the
    destructor), with the behaviour the C++ standard gives these members. *)

From stdpp Require Import base gmap list.

(** ** The runtime seen by the wrapper *)

(** An operating-system thread. *)
Definition tid := nat.

(** A call of a disposal member of [std::thread] on the handle of a thread. *)
Inductive event :=
| ev_join (t : tid)
| ev_detach (t : tid).

Definition ev_tid (e : event) : tid :=
  match e with ev_join t | ev_detach t => t end.

#[global] Instance event_eq_dec : EqDecision event.
Proof. solve_decision. Defined.

(** [this_thread]: the thread that executes the calls,
    [std::this_thread::get_id()]; [finished]: the threads whose completion
    the executing context has waited for; [calls]: every call of [join] or
    [detach] made so far, oldest first. *)
Record world := World {
  this_thread : tid;
  finished : gset tid;
  calls : list event
}.

Definition record_call (e : event) (w : world) : world :=
  World (this_thread w) (finished w) (calls w ++ [e]).

Definition wait_for (t : tid) (w : world) : world :=
  World (this_thread w) ({[t]} ∪ finished w) (calls w).

(** The error conditions of [std::system_error] that [join] and [detach]
    report; [no_such_process] is for a handle that is not valid, which a
    handle got by starting a thread or by a move never is. *)
Inductive errc :=
| resource_deadlock_would_occur
| no_such_process
| invalid_argument.

(** How a call ends: it returns a value, it leaves by an exception, or the
    program is ended by [std::terminate]. *)
Inductive outcome (A : Type) :=
| Ok (a : A)
| Throw (e : errc)
| Terminate.
Arguments Ok {A} a.
Arguments Throw {A} e.
Arguments Terminate {A}.

(** Calls that act on the runtime: the effects made before an exception
    leaves stay in the world. *)
Definition M (A : Type) : Type := world → outcome A * world.

#[global] Instance M_ret : MRet M := λ A (a : A) w, (Ok a, w).

#[global] Instance M_bind : MBind M := λ A B (k : A → M B) (m : M A) w,
  match m w with
  | (Ok a, w') => k a w'
  | (Throw e, w') => (Throw e, w')
  | (Terminate, w') => (Terminate, w')
  end.

(** A function that is [noexcept]: an exception that would leave it
    ends the program. *)
Definition noexcept {A} (m : M A) : M A :=
  λ w, match m w with
       | (Throw _, w') => (Terminate, w')
       | r => r
       end.

(** ** [std::thread] *)

Module std_thread.

(** [std::thread::id]; [None] is the default-constructed id, which
    represents no thread. *)
Definition id := option tid.

(** A [std::thread] object is known by the id it holds. *)
Record thread := Thread { get_id : id }.

(** [std::thread::id()]: the id that represents no thread. *)
Definition default_id : id := None.

(** [std::thread()]: the handle that represents no thread. *)
Definition empty : thread := Thread default_id.

(** [joinable()]: [get_id() != id()]. *)
Definition joinable (t : thread) : bool :=
  match get_id t with Some _ => true | None => false end.

(** [thread(thread&& x)]: the new object takes the id of [x], and [x] is
    left holding the default id.  Returns the new object and [x] after
    the move. *)
Definition move (x : thread) : thread * thread := (Thread (get_id x), empty).

(** [join()]: throws [invalid_argument] on a handle that is not
    joinable and [resource_deadlock_would_occur] when called by the
    thread the handle represents; otherwise blocks until the thread has
    completed and leaves the handle with the default id.  [Ok] is the
    return after the wait: a wait that never ends has no outcome here, and
    of the failures the standard allows, [no_such_process] and a deadlock
    detected between several threads are not produced.  What is proved of
    a failing call for whatever the library does is stated over
    [dtor_of]. *)
Definition join (t : thread) : M thread :=
  λ w, match get_id t with
       | None => (Throw invalid_argument, w)
       | Some i =>
           if decide (i = this_thread w)
           then (Throw resource_deadlock_would_occur, record_call (ev_join i) w)
           else (Ok empty, wait_for i (record_call (ev_join i) w))
       end.

(** [detach()]: throws [invalid_argument] on a handle that is not
    joinable; otherwise the thread continues on its own, the caller does
    not block, and the handle is left with the default id.
    [no_such_process] is not produced. *)
Definition detach (t : thread) : M thread :=
  λ w, match get_id t with
       | None => (Throw invalid_argument, w)
       | Some i => (Ok empty, record_call (ev_detach i) w)
       end.

(** [~thread()]: [std::terminate] if the handle is still joinable. *)
Definition dtor (t : thread) : M unit :=
  λ w, if joinable t then (Terminate, w) else (Ok tt, w).

End std_thread.

#[global] Instance thread_eq_dec : EqDecision std_thread.thread.
Proof. solve_decision. Defined.

(** ** [wsp::details] *)

(** [struct join {}; struct detach {};]: the two tags. *)
Inductive tag := join | detach.

#[global] Instance tag_eq_dec : EqDecision tag.
Proof. solve_decision. Defined.

(** [class autothread<T>] for [T] one of the tags: the single data
    member [std::thread thrd]. *)
Record autothread (T : tag) := Autothread { thrd : std_thread.thread }.
Arguments Autothread {T} thrd.
Arguments thrd {T} a.

(** [autothread(std::thread&& t): thrd(std::move(t)) {}].  Returns the
    new wrapper and the caller's [t] after the call. *)
Definition ctor (T : tag) (t : std_thread.thread)
  : autothread T * std_thread.thread :=
  let '(mine, t') := std_thread.move t in (Autothread mine, t').

(** [autothread(autothread&& other) = default;]: the member is move
    constructed from [other.thrd].  Returns the new wrapper and [other]
    after the call. *)
Definition move_ctor {T : tag} (other : autothread T)
  : autothread T * autothread T :=
  let '(mine, theirs) := std_thread.move (thrd other) in
  (Autothread mine, Autothread theirs).

(** The body of [~autothread()] in [autothread<join>]:
    [if (thrd.joinable()) thrd.join();]. *)
Definition dtor_body_join (a : autothread join) : M (autothread join) :=
  if std_thread.joinable (thrd a)
  then t ← std_thread.join (thrd a); mret (Autothread t)
  else mret a.

(** The body of [~autothread()] in [autothread<detach>]:
    [if (thrd.joinable()) thrd.detach();]. *)
Definition dtor_body_detach (a : autothread detach) : M (autothread detach) :=
  if std_thread.joinable (thrd a)
  then t ← std_thread.detach (thrd a); mret (Autothread t)
  else mret a.

Definition dtor_body {T : tag} : autothread T → M (autothread T) :=
  match T with
  | join => dtor_body_join
  | detach => dtor_body_detach
  end.

(** [~autothread()]: the body, then the destructor of the member [thrd];
    a destructor is [noexcept] unless declared otherwise, and this one is
    not. *)
Definition dtor {T : tag} (a : autothread T) : M unit :=
  noexcept (a' ← dtor_body a; std_thread.dtor (thrd a')).

(** [id get_id() { return thrd.get_id(); }], with
    [using id = std::thread::id;].  The member function is not [const]:
    the wrapper after the call is returned next to the id. *)
Definition get_id {T : tag} (a : autothread T)
  : std_thread.id * autothread T :=
  (std_thread.get_id (thrd a), a).

(** The member of [std::thread] that the destructor of each class calls. *)
Definition dispose (T : tag) : std_thread.thread → M std_thread.thread :=
  match T with
  | join => std_thread.join
  | detach => std_thread.detach
  end.

(** The event that the policy of a tag applies to a thread. *)
Definition disposal (T : tag) (t : tid) : event :=
  match T with join => ev_join t | detach => ev_detach t end.

(** The destructor of either class with the member of [std::thread] it
    calls left open: [action] is whatever [join] or [detach] does.
    [dtor_body_of std_thread.join] is the body of [autothread<join>] and
    [dtor_body_of std_thread.detach] the body of [autothread<detach>]. *)
Definition dtor_body_of {T : tag}
    (action : std_thread.thread → M std_thread.thread) (a : autothread T)
  : M (autothread T) :=
  if std_thread.joinable (thrd a)
  then t ← action (thrd a); mret (Autothread t)
  else mret a.

Definition dtor_of {T : tag}
    (action : std_thread.thread → M std_thread.thread) (a : autothread T)
  : M unit :=
  noexcept (a' ← dtor_body_of action a; std_thread.dtor (thrd a')).

(** A call of the library that fails with [e] and does nothing else. *)
Definition failing (e : errc) : std_thread.thread → M std_thread.thread :=
  λ _ w, (Throw e, w).

(** What [join] and [detach] promise when they return: the handle is left
    not joinable. *)
Definition leaves_empty (r : outcome std_thread.thread * world) : bool :=
  match r.1 with
  | Ok t => negb (std_thread.joinable t)
  | _ => true
  end.

(** ** The special member functions of the two classes *)

Inductive special :=
| copy_constructor
| move_constructor
| copy_assignment
| move_assignment
| destructor.

(** How a declared special member function is defined. *)
Inductive definition := deleted | defaulted | user_provided.

(** What a class definition declares itself: [None] where it declares
    nothing. *)
Definition class_decl := special → option definition.

(** [autothread<join>]: the copy constructor is deleted, the move
    constructor is defaulted, the destructor has a body, and no assignment
    operator is declared. *)
Definition autothread_join_decl : class_decl := λ s,
  match s with
  | copy_constructor => Some deleted
  | move_constructor => Some defaulted
  | destructor => Some user_provided
  | copy_assignment => None
  | move_assignment => None
  end.

(** [autothread<detach>] declares the same. *)
Definition autothread_detach_decl : class_decl := λ s,
  match s with
  | copy_constructor => Some deleted
  | move_constructor => Some defaulted
  | destructor => Some user_provided
  | copy_assignment => None
  | move_assignment => None
  end.

Definition autothread_decl (T : tag) : class_decl :=
  match T with
  | join => autothread_join_decl
  | detach => autothread_detach_decl
  end.

(** [std::thread], the type of the member: movable, not copyable. *)
Definition std_thread_decl : class_decl := λ s,
  match s with
  | copy_constructor => Some deleted
  | copy_assignment => Some deleted
  | move_constructor => Some user_provided
  | move_assignment => Some user_provided
  | destructor => Some user_provided
  end.

Definition declares (c : class_decl) (s : special) : bool :=
  match c s with Some _ => true | None => false end.

(** The special member functions a class has, with the implicit ones:
    a copy operation that is not declared is deleted when the class declares
    a move operation and defaulted otherwise; a move operation that is not
    declared is defaulted when the class declares no copy operation, no
    other move operation and no destructor, and is absent otherwise. *)
Definition members (c : class_decl) (s : special) : option definition :=
  match c s with
  | Some d => Some d
  | None =>
      match s with
      | copy_constructor | copy_assignment =>
          if declares c move_constructor || declares c move_assignment
          then Some deleted else Some defaulted
      | move_constructor =>
          if declares c copy_constructor || declares c copy_assignment
             || declares c move_assignment || declares c destructor
          then None else Some defaulted
      | move_assignment =>
          if declares c copy_constructor || declares c copy_assignment
             || declares c move_constructor || declares c destructor
          then None else Some defaulted
      | destructor => Some defaulted
      end
  end.

(** The expressions that make one object of a class from another. *)
Inductive expr :=
| init_from_lvalue      (* [autothread<T> b(a);]             *)
| init_from_rvalue      (* [autothread<T> b(std::move(a));]  *)
| assign_from_lvalue    (* [b = a;]                          *)
| assign_from_rvalue.   (* [b = std::move(a);]               *)

(** Overload resolution: an rvalue goes to the move operation when the
    class has one and to the copy operation otherwise. *)
Definition selected (m : special → option definition) (e : expr) : special :=
  match e with
  | init_from_lvalue => copy_constructor
  | init_from_rvalue =>
      match m move_constructor with
      | Some _ => move_constructor
      | None => copy_constructor
      end
  | assign_from_lvalue => copy_assignment
  | assign_from_rvalue =>
      match m move_assignment with
      | Some _ => move_assignment
      | None => copy_assignment
      end
  end.

(** An expression compiles when the function it selects is not deleted,
    and, where that function is defaulted, when the same expression
    compiles for the member. *)
Definition compiles_for (mem c : class_decl) (e : expr) : bool :=
  match members c (selected (members c) e) with
  | Some user_provided => true
  | Some defaulted =>
      match members mem (selected (members mem) e) with
      | Some user_provided | Some defaulted => true
      | _ => false
      end
  | Some deleted | None => false
  end.

Definition compiles (T : tag) (e : expr) : bool :=
  compiles_for std_thread_decl (autothread_decl T) e.

(** ** Programs over wrappers *)

(** A wrapper of either class. *)
Inductive object :=
| join_object (a : autothread join)
| detach_object (a : autothread detach).

Definition pack {T : tag} : autothread T → object :=
  match T with
  | join => join_object
  | detach => detach_object
  end.

Definition tag_of (o : object) : tag :=
  match o with join_object _ => join | detach_object _ => detach end.

Definition handle (o : object) : std_thread.thread :=
  match o with join_object a | detach_object a => thrd a end.

(** The threads started so far are [0 .. next_thread - 1]; the wrappers
    constructed so far are [0 .. next_object - 1], and [objects] holds
    those whose destructor has not run. *)
Record state := State {
  objects : gmap nat object;
  next_object : nat;
  next_thread : tid;
  env : world
}.

Inductive op :=
| op_ctor (T : tag) (started : bool)
    (* [autothread<T> a(std::thread(f));] or [autothread<T> a(std::thread());] *)
| op_move (src : nat)        (* [autothread<T> b(std::move(a));] *)
| op_dtor (o : nat)          (* the lifetime of [a] ends          *)
| op_get_id (o : nat)        (* [a.get_id()]                      *)
| op_run_on (t : tid).       (* what follows is executed by [t]   *)

#[global] Instance op_eq_dec : EqDecision op.
Proof. solve_decision. Defined.

Inductive reply :=
| done
| returned (i : std_thread.id)
| threw (e : errc)
| terminated
| no_such_object.

Definition set_objects (f : gmap nat object → gmap nat object) (s : state) : state :=
  State (f (objects s)) (next_object s) (next_thread s) (env s).

Definition set_env (w : world) (s : state) : state :=
  State (objects s) (next_object s) (next_thread s) w.

(** A new wrapper gets the next object number. *)
Definition alloc (o : object) (s : state) : state :=
  State (<[next_object s := o]> (objects s)) (S (next_object s))
        (next_thread s) (env s).

(** A started thread gets the next thread number. *)
Definition spawn (s : state) : std_thread.thread * state :=
  (std_thread.Thread (Some (next_thread s)),
   State (objects s) (next_object s) (S (next_thread s)) (env s)).

Definition move_object (o : object) : object * object :=
  match o with
  | join_object a => let '(b, a') := move_ctor a in (join_object b, join_object a')
  | detach_object a => let '(b, a') := move_ctor a in (detach_object b, detach_object a')
  end.

Definition dtor_object (o : object) : M unit :=
  match o with
  | join_object a => dtor a
  | detach_object a => dtor a
  end.

Definition get_id_object (o : object) : std_thread.id * object :=
  match o with
  | join_object a => let '(i, a') := get_id a in (i, join_object a')
  | detach_object a => let '(i, a') := get_id a in (i, detach_object a')
  end.

Definition step (c : op) (s : state) : reply * state :=
  match c with
  | op_ctor T started =>
      let '(t, s1) := if started then spawn s else (std_thread.empty, s) in
      let '(a, _) := ctor T t in
      (done, alloc (pack a) s1)
  | op_move src =>
      match objects s !! src with
      | None => (no_such_object, s)
      | Some o =>
          let '(new, old) := move_object o in
          (done, alloc new (set_objects (insert src old) s))
      end
  | op_dtor n =>
      match objects s !! n with
      | None => (no_such_object, s)
      | Some o =>
          match dtor_object o (env s) with
          | (Ok _, w) => (done, set_env w (set_objects (delete n) s))
          | (Throw e, w) => (threw e, set_env w s)
          | (Terminate, w) => (terminated, set_env w s)
          end
      end
  | op_get_id n =>
      match objects s !! n with
      | None => (no_such_object, s)
      | Some o =>
          let '(i, o') := get_id_object o in
          (returned i, set_objects (insert n o') s)
      end
  | op_run_on t =>
      (done, set_env (World t (finished (env s)) (calls (env s))) s)
  end.

(** A program runs until an operation does not return. *)
Fixpoint run (p : list op) (s : state) : reply * state :=
  match p with
  | [] => (done, s)
  | c :: p' =>
      match step c s with
      | (done, s') | (returned _, s') => run p' s'
      | r => r
      end
  end.

(** The program starts on the main thread, thread [0], with nothing
    constructed; the threads it starts are [1], [2], ... *)
Definition init : state := State ∅ 0 1 (World 0 ∅ []).

(** What the program can see of a wrapper: not constructed yet, owning a
    thread, owning none, or past its destructor. *)
Inductive view :=
| Unborn
| Joinable (t : tid)
| Empty
| Destroyed.

Definition view_of (s : state) (n : nat) : view :=
  match objects s !! n with
  | Some o =>
      match std_thread.get_id (handle o) with
      | Some t => Joinable t
      | None => Empty
      end
  | None => if decide (n < next_object s) then Destroyed else Unborn
  end.

(** The calls made on the handle of thread [t]. *)
Definition calls_on (t : tid) (w : world) : list event :=
  filter (λ e, ev_tid e = t) (calls w).

(** A chain of owners: a started thread is wrapped, the wrapper is moved
    [m] times, each time out of the newest owner, and then every owner is
    destroyed, the newest first. *)
Definition chain (T : tag) (m : nat) : list op :=
  op_ctor T true :: (op_move <$> seq 0 m) ++ (op_dtor <$> reverse (seq 0 (S m))).

(** The replies after which a program goes on. *)
Definition returns (r : reply) : bool :=
  match r with done | returned _ => true | _ => false end.

(** The calls a step makes: the destructor of a wrapper that owns a thread
    makes the call of its policy on that thread, and nothing else makes
    any. *)
Definition disposed_by (c : op) (s : state) : list event :=
  match c with
  | op_dtor n =>
      match objects s !! n with
      | Some o =>
          match std_thread.get_id (handle o) with
          | Some t => [disposal (tag_of o) t]
          | None => []
          end
      | None => []
      end
  | _ => []
  end.

(** What holds between the steps of a program: every thread started so
    far is owned by exactly one live wrapper and has had no call made on
    it, or is owned by none and has had exactly one. *)
Record wf (s : state) : Prop := Wf {
  wf_main : 1 ≤ next_thread s;
  wf_objects n : is_Some (objects s !! n) → n < next_object s;
  wf_started n t : view_of s n = Joinable t → 1 ≤ t < next_thread s;
  wf_one_owner n1 n2 t :
    view_of s n1 = Joinable t → view_of s n2 = Joinable t → n1 = n2;
  wf_undisposed n t : view_of s n = Joinable t → calls_on t (env s) = [];
  wf_at_most_once t : length (calls_on t (env s)) ≤ 1;
  wf_calls_started e : e ∈ calls (env s) → 1 ≤ ev_tid e < next_thread s;
  wf_accounted t :
    1 ≤ t < next_thread s →
    (∃ n, view_of s n = Joinable t) ∨ length (calls_on t (env s)) = 1
}.

(** The moves a view can make: a wrapper that owns a thread keeps owning
    the same one until it is moved from or destroyed, and a wrapper that
    owns none, or is destroyed, never owns one again. *)
Definition evolves (v v' : view) : Prop :=
  match v with
  | Unborn => True
  | Joinable t => v' = Joinable t ∨ v' = Empty ∨ v' = Destroyed
  | Empty => v' = Empty ∨ v' = Destroyed
  | Destroyed => v' = Destroyed
  end.

Definition empty_object (T : tag) : object :=
  pack (T:=T) (Autothread std_thread.empty).

Definition owner_object (T : tag) (t : tid) : object :=
  pack (T:=T) (Autothread (std_thread.Thread (Some t))).

(** The wrappers [0 .. m - 1], all moved from. *)
Fixpoint moved_from (T : tag) (m : nat) : gmap nat object :=
  match m with
  | 0 => ∅
  | S k => <[k := empty_object T]> (moved_from T k)
  end.

(** The states a program can be in between two operations. *)
Definition reachable (s : state) : Prop :=
  ∃ p, returns (run p init).1 = true ∧ (run p init).2 = s.

(** Operations that hand the program to another thread, and operations that
    construct a wrapper of [autothread<join>]. *)
Definition switches (c : op) : bool :=
  match c with op_run_on _ => true | _ => false end.

Definition constructs_join (c : op) : bool :=
  match c with op_ctor join _ => true | _ => false end.

(** The operations that move out of the wrapper [k] or destroy it. *)
Definition touches (k : nat) (c : op) : bool :=
  match c with
  | op_move n | op_dtor n => bool_decide (n = k)
  | _ => false
  end.

(** The wrapper [n] is within its lifetime. *)
Definition live (s : state) (n : nat) : bool :=
  match objects s !! n with Some _ => true | None => false end.

(** The wrapper [n] is an [autothread<join>] that owns the thread that is
    executing. *)
Definition joins_itself (s : state) (n : nat) : bool :=
  match objects s !! n with
  | Some o =>
      match tag_of o, std_thread.get_id (handle o) with
      | join, Some t => bool_decide (t = this_thread (env s))
      | _, _ => false
      end
  | None => false
  end.

(** ** The destructor *)

Section dtor.
Context {T : tag}.
Implicit Types (a : autothread T) (w : world) (t : tid).

Lemma dtor_not_joinable a w :
  std_thread.joinable (thrd a) = false → dtor a w = (Ok (), w).
Proof.
  destruct a as [[[t|]]]; [done|]. intros _. by destruct T.
Qed.

Lemma dtor_joinable a w t :
  std_thread.get_id (thrd a) = Some t →
  dtor a w =
    match T with
    | join =>
        if decide (t = this_thread w)
        then (Terminate, record_call (ev_join t) w)
        else (Ok (), wait_for t (record_call (ev_join t) w))
    | detach => (Ok (), record_call (ev_detach t) w)
    end.
Proof.
  destruct a as [[i]]; simpl; intros ->.
  destruct T; [|done].
  unfold dtor, noexcept, mbind, M_bind; simpl.
  unfold dtor_body_join, mbind, M_bind, std_thread.join; simpl.
  by destruct (decide (t = this_thread w)).
Qed.

(** Whatever the handle, the destructor makes at most one call, and
    makes it on the handle it owns. *)
Lemma dtor_calls a w :
  calls (dtor a w).2 = calls w ++
    match std_thread.get_id (thrd a) with
    | Some t => [disposal T t]
    | None => []
    end.
Proof.
  destruct (std_thread.get_id (thrd a)) as [t|] eqn:E.
  - rewrite (dtor_joinable a w t E).
    destruct T; [destruct (decide _)|]; done.
  - rewrite dtor_not_joinable; [by rewrite app_nil_r|].
    unfold std_thread.joinable. by rewrite E.
Qed.

Lemma dtor_never_throws a w e : (dtor a w).1 ≠ Throw e.
Proof.
  unfold dtor, noexcept.
  by destruct ((dtor_body a ≫= λ a', std_thread.dtor (thrd a')) w) as [[]].
Qed.

(** The destructor of each class is the destructor over the member it
    calls. *)
Lemma dtor_of_dispose a w : dtor a w = dtor_of (dispose T) a w.
Proof. by destruct T. Qed.

End dtor.

(** ** Wrappers of either class *)

Lemma handle_pack {T} (a : autothread T) : handle (pack a) = thrd a.
Proof. by destruct T. Qed.

Lemma move_object_new o :
  std_thread.get_id (handle (move_object o).1) = std_thread.get_id (handle o)
  ∧ tag_of (move_object o).1 = tag_of o.
Proof. by destruct o as [[[i]]|[[i]]]. Qed.

Lemma move_object_old o :
  handle (move_object o).2 = std_thread.empty ∧ tag_of (move_object o).2 = tag_of o.
Proof. by destruct o as [[[i]]|[[i]]]. Qed.

Lemma get_id_object_eq o :
  get_id_object o = (std_thread.get_id (handle o), o).
Proof. by destruct o. Qed.

Lemma dtor_object_calls o w :
  calls (dtor_object o w).2 = calls w ++
    match std_thread.get_id (handle o) with
    | Some t => [disposal (tag_of o) t]
    | None => []
    end.
Proof. destruct o; apply dtor_calls. Qed.

Lemma dtor_object_never_throws o w e : (dtor_object o w).1 ≠ Throw e.
Proof. destruct o; apply dtor_never_throws. Qed.

Lemma dtor_object_empty o w :
  std_thread.get_id (handle o) = None → dtor_object o w = (Ok (), w).
Proof.
  intros E. destruct o; simpl in *; apply dtor_not_joinable;
    unfold std_thread.joinable; by rewrite E.
Qed.

Lemma dtor_object_joinable o w t :
  std_thread.get_id (handle o) = Some t →
  dtor_object o w =
    match tag_of o with
    | join =>
        if decide (t = this_thread w)
        then (Terminate, record_call (ev_join t) w)
        else (Ok (), wait_for t (record_call (ev_join t) w))
    | detach => (Ok (), record_call (ev_detach t) w)
    end.
Proof. intros E. destruct o; simpl in *; by rewrite (dtor_joinable _ _ t E). Qed.

(** ** One step of a program *)


Lemma step_calls c s :
  calls (env (step c s).2) = calls (env s) ++ disposed_by c s.
Proof.
  destruct c as [T [] | src | n | n | t]; simpl; try by rewrite app_nil_r.
  - destruct (objects s !! src) as [o|]; simpl; [|by rewrite app_nil_r].
    destruct (move_object o); simpl. by rewrite app_nil_r.
  - destruct (objects s !! n) as [o|]; simpl; [|by rewrite app_nil_r].
    rewrite <- dtor_object_calls.
    by destruct (dtor_object o (env s)) as [[]].
  - destruct (objects s !! n) as [o|]; simpl; [|by rewrite app_nil_r].
    rewrite get_id_object_eq. simpl. by rewrite app_nil_r.
Qed.

Lemma step_never_throws c s e : (step c s).1 ≠ threw e.
Proof.
  destruct c as [T [] | src | n | n | t]; simpl; try done.
  - destruct (objects s !! src) as [o|]; [|done]. by destruct (move_object o).
  - destruct (objects s !! n) as [o|]; [|done].
    pose proof (dtor_object_never_throws o (env s)) as H.
    destruct (dtor_object o (env s)) as [[u|e'|] w']; try done.
    by destruct (H e').
  - destruct (objects s !! n) as [o|]; [|done]. by rewrite get_id_object_eq.
Qed.

(** [get_id] changes nothing at all. *)
Lemma step_get_id s n o :
  objects s !! n = Some o →
  step (op_get_id n) s = (returned (std_thread.get_id (handle o)), s).
Proof.
  intros E. simpl. rewrite E, get_id_object_eq.
  destruct s as [objs no nt w]; unfold set_objects; simpl in *.
  by rewrite insert_id.
Qed.

(** ** Ownership *)

Lemma view_joinable s n t :
  view_of s n = Joinable t ↔
  ∃ o, objects s !! n = Some o ∧ std_thread.get_id (handle o) = Some t.
Proof.
  unfold view_of. destruct (objects s !! n) as [o|].
  - destruct (std_thread.get_id (handle o)) as [i|] eqn:E.
    + split; [intros [= ->]; eauto|]. by intros (o' & [= <-] & [= ->]%(eq_trans (eq_sym E))).
    + split; [done|]. intros (o' & [= <-] & H). congruence.
  - split; [by case_decide|]. by intros (o' & [=] & _).
Qed.

Lemma wf_init : wf init.
Proof.
  assert (Hnone : ∀ n t, view_of init n ≠ Joinable t).
  { intros n t. rewrite view_joinable. simpl. intros (o & Ho & _).
    by rewrite lookup_empty in Ho. }
  split.
  - done.
  - intros n [o Ho]. simpl in Ho. by rewrite lookup_empty in Ho.
  - intros n t H. by destruct (Hnone n t).
  - intros n1 n2 t H. by destruct (Hnone n1 t).
  - done.
  - intros t. unfold calls_on. simpl. lia.
  - intros e. simpl. by rewrite elem_of_nil.
  - simpl. lia.
Qed.

Lemma calls_on_none t w :
  t ∉ ev_tid <$> calls w → calls_on t w = [].
Proof.
  unfold calls_on. induction (calls w) as [|e l IH]; [done|].
  rewrite fmap_cons, not_elem_of_cons. intros [Hne Hl].
  rewrite filter_cons_False by congruence. auto.
Qed.

Lemma calls_on_app t w l :
  filter (λ e, ev_tid e = t) (calls w ++ l)
  = calls_on t w ++ filter (λ e, ev_tid e = t) l.
Proof. apply filter_app. Qed.

Lemma view_alloc_joinable s o n t :
  view_of (alloc o s) n = Joinable t ↔
  (n = next_object s ∧ std_thread.get_id (handle o) = Some t)
  ∨ (n ≠ next_object s ∧ view_of s n = Joinable t).
Proof.
  rewrite !view_joinable. simpl.
  destruct (decide (n = next_object s)) as [->|Hne].
  - rewrite lookup_insert_eq. split.
    + intros (o' & [= <-] & H). by left.
    + intros [[_ H]|[Hne _]]; [eauto|done].
  - rewrite lookup_insert_ne by done. split.
    + intros H. by right.
    + by intros [[? _]|[_ H]].
Qed.

(** The invariant looks at the wrappers, the two counters and the calls
    only. *)
Lemma wf_same s s' :
  objects s' = objects s → next_object s' = next_object s →
  next_thread s' = next_thread s → calls (env s') = calls (env s) →
  wf s → wf s'.
Proof.
  intros Ho Hn Ht Hc Hwf.
  assert (Hv : ∀ n, view_of s' n = view_of s n).
  { intros n. unfold view_of. by rewrite Ho, Hn. }
  assert (Hl : ∀ t, calls_on t (env s') = calls_on t (env s)).
  { intros t. unfold calls_on. by rewrite Hc. }
  split.
  - rewrite Ht. apply (wf_main s Hwf).
  - intros n. rewrite Ho, Hn. apply (wf_objects s Hwf).
  - intros n t. rewrite Hv, Ht. apply (wf_started s Hwf).
  - intros n1 n2 t. rewrite !Hv. apply (wf_one_owner s Hwf).
  - intros n t. rewrite Hv, Hl. apply (wf_undisposed s Hwf).
  - intros t. rewrite Hl. apply (wf_at_most_once s Hwf).
  - intros e. rewrite Hc, Ht. apply (wf_calls_started s Hwf).
  - intros t. rewrite Ht, Hl. intros H.
    destruct (wf_accounted s Hwf t H) as [[n Hn']|H']; [left|by right].
    exists n. by rewrite Hv.
Qed.

Lemma wf_live_lt s n t : wf s → view_of s n = Joinable t → n < next_object s.
Proof.
  intros Hwf (o & Ho & _)%view_joinable.
  apply (wf_objects s Hwf n). by exists o.
Qed.

(** Wrapping a handle that holds no thread. *)
Lemma wf_alloc_empty s o :
  wf s → std_thread.get_id (handle o) = None → wf (alloc o s).
Proof.
  intros Hwf Ho.
  assert (Hv : ∀ n t, view_of (alloc o s) n = Joinable t → view_of s n = Joinable t).
  { intros n t. rewrite view_alloc_joinable. intros [[_ H]|[_ H]]; [congruence|done]. }
  split.
  - apply (wf_main s Hwf).
  - intros n. simpl. destruct (decide (n = next_object s)) as [->|Hne]; [lia|].
    rewrite lookup_insert_ne by done. intros H%(wf_objects s Hwf). lia.
  - intros n t H%Hv. apply (wf_started s Hwf n t H).
  - intros n1 n2 t H1%Hv H2%Hv. by apply (wf_one_owner s Hwf n1 n2 t).
  - intros n t H%Hv. apply (wf_undisposed s Hwf n t H).
  - apply (wf_at_most_once s Hwf).
  - apply (wf_calls_started s Hwf).
  - intros t Ht. destruct (wf_accounted s Hwf t Ht) as [[n Hn]|H]; [left|by right].
    exists n. rewrite view_alloc_joinable. right. split; [|done].
    pose proof (wf_live_lt s n t Hwf Hn). lia.
Qed.

(** Wrapping the handle of a thread that has just been started. *)
Lemma wf_alloc_started s o :
  wf s → std_thread.get_id (handle o) = Some (next_thread s) →
  wf (alloc o (spawn s).2).
Proof.
  intros Hwf Ho.
  assert (Hv : ∀ n t, view_of (alloc o (spawn s).2) n = Joinable t ↔
            (n = next_object s ∧ t = next_thread s)
            ∨ (n ≠ next_object s ∧ view_of s n = Joinable t)).
  { intros n t. rewrite view_alloc_joinable. simpl. rewrite Ho.
    split; (intros [[-> H]|H]; [left|by right]); split; congruence. }
  assert (Hnew : calls_on (next_thread s) (env s) = []).
  { apply calls_on_none. intros (e & He & Hin)%list_elem_of_fmap.
    pose proof (wf_calls_started s Hwf e Hin). lia. }
  split.
  - pose proof (wf_main s Hwf). simpl. lia.
  - intros n. simpl. destruct (decide (n = next_object s)) as [->|Hne]; [lia|].
    rewrite lookup_insert_ne by done. intros H%(wf_objects s Hwf). lia.
  - intros n t [[-> ->]|[_ H]]%Hv; simpl.
    + pose proof (wf_main s Hwf). lia.
    + pose proof (wf_started s Hwf n t H). lia.
  - intros n1 n2 t [[-> ->]|[Hn1 H1]]%Hv [[-> Ht]|[Hn2 H2]]%Hv; try done.
    + pose proof (wf_started s Hwf n2 _ H2). lia.
    + subst t. pose proof (wf_started s Hwf n1 _ H1). lia.
    + by apply (wf_one_owner s Hwf n1 n2 t).
  - intros n t [[-> ->]|[_ H]]%Hv; [done|]. apply (wf_undisposed s Hwf n t H).
  - apply (wf_at_most_once s Hwf).
  - intros e He. pose proof (wf_calls_started s Hwf e He). simpl. lia.
  - intros t Ht. simpl in Ht. destruct (decide (t = next_thread s)) as [->|Hne].
    { left. exists (next_object s). apply Hv. by left. }
    destruct (wf_accounted s Hwf t) as [[n Hn]|H]; [lia|left|by right].
    exists n. apply Hv. right. split; [|done].
    pose proof (wf_live_lt s n t Hwf Hn). lia.
Qed.

(** Move construction out of the wrapper [src]. *)
Lemma view_move_joinable s src o n t :
  objects s !! src = Some o → src ≠ next_object s →
  view_of (alloc (move_object o).1
             (set_objects (insert src (move_object o).2) s)) n = Joinable t ↔
  (n = next_object s ∧ view_of s src = Joinable t)
  ∨ (n ≠ next_object s ∧ n ≠ src ∧ view_of s n = Joinable t).
Proof.
  intros Hsrc Hne.
  destruct (move_object_new o) as [Hnew _], (move_object_old o) as [Hold _].
  rewrite view_alloc_joinable. simpl. rewrite Hnew.
  rewrite !view_joinable. simpl. rewrite Hsrc.
  split.
  - intros [[-> H]|[Hn (o' & Ho' & H)]]; [left; eauto|right].
    destruct (decide (n = src)) as [->|Hns].
    + rewrite lookup_insert_eq in Ho'. injection Ho' as <-.
      by rewrite Hold in H.
    + rewrite lookup_insert_ne in Ho' by done. eauto.
  - intros [[-> (o' & [= <-] & H)]|(Hn & Hns & o' & Ho' & H)]; [by left|right].
    split; [done|]. exists o'. by rewrite lookup_insert_ne.
Qed.

Lemma wf_move s src o :
  wf s → objects s !! src = Some o →
  wf (alloc (move_object o).1 (set_objects (insert src (move_object o).2) s)).
Proof.
  intros Hwf Hsrc.
  assert (Hlt : src < next_object s) by (apply (wf_objects s Hwf); eauto).
  assert (Hne : src ≠ next_object s) by lia.
  pose proof (λ n t, view_move_joinable s src o n t Hsrc Hne) as Hv.
  split.
  - apply (wf_main s Hwf).
  - intros n. simpl. destruct (decide (n = next_object s)) as [->|Hn]; [lia|].
    rewrite lookup_insert_ne by done.
    destruct (decide (n = src)) as [->|Hns]; [lia|].
    rewrite lookup_insert_ne by done. intros H%(wf_objects s Hwf). lia.
  - intros n t [[_ H]|(_ & _ & H)]%Hv; apply (wf_started s Hwf _ t H).
  - intros n1 n2 t [[-> H1]|(Hn1 & Hs1 & H1)]%Hv [[-> H2]|(Hn2 & Hs2 & H2)]%Hv;
      try done.
    + by destruct Hs2, (wf_one_owner s Hwf src n2 t).
    + by destruct Hs1, (wf_one_owner s Hwf n1 src t).
    + by apply (wf_one_owner s Hwf n1 n2 t).
  - intros n t [[_ H]|(_ & _ & H)]%Hv; apply (wf_undisposed s Hwf _ t H).
  - apply (wf_at_most_once s Hwf).
  - apply (wf_calls_started s Hwf).
  - intros t Ht. destruct (wf_accounted s Hwf t Ht) as [[n Hn]|H]; [left|by right].
    destruct (decide (n = src)) as [->|Hns].
    + exists (next_object s). apply Hv. by left.
    + exists n. apply Hv. right. split; [|done].
      pose proof (wf_live_lt s n t Hwf Hn). lia.
Qed.

(** A step adds at most one call, on a thread no call was made on. *)
Lemma disposed_by_cases c s :
  wf s →
  disposed_by c s = []
  ∨ ∃ n o t, c = op_dtor n ∧ objects s !! n = Some o
      ∧ view_of s n = Joinable t
      ∧ disposed_by c s = [disposal (tag_of o) t].
Proof.
  intros Hwf. destruct c as [T b | src | n | n | t]; try by left.
  simpl. destruct (objects s !! n) as [o|] eqn:Ho; [|by left].
  destruct (std_thread.get_id (handle o)) as [t|] eqn:Ht; [|by left].
  right. exists n, o, t. repeat split; try done.
  apply view_joinable. eauto.
Qed.

Lemma ev_tid_disposal T t : ev_tid (disposal T t) = t.
Proof. by destruct T. Qed.

Lemma calls_on_step c s t :
  calls_on t (env (step c s).2)
  = calls_on t (env s) ++ filter (λ e, ev_tid e = t) (disposed_by c s).
Proof. unfold calls_on at 1. rewrite step_calls. apply calls_on_app. Qed.

Lemma at_most_once_step c s t :
  wf s → length (calls_on t (env (step c s).2)) ≤ 1.
Proof.
  intros Hwf. rewrite calls_on_step.
  destruct (disposed_by_cases c s Hwf) as [->|(n & o & t' & _ & _ & Hv & ->)].
  { rewrite filter_nil, app_nil_r. apply (wf_at_most_once s Hwf). }
  destruct (decide (t' = t)) as [->|Hne].
  - rewrite (wf_undisposed s Hwf n t Hv). simpl.
    rewrite filter_cons_True by apply ev_tid_disposal. simpl. lia.
  - rewrite filter_cons_False by (by rewrite ev_tid_disposal).
    rewrite filter_nil, app_nil_r. apply (wf_at_most_once s Hwf).
Qed.

(** A destructor that returns. *)
Lemma view_delete_joinable s w n0 n t :
  view_of (set_env w (set_objects (delete n0) s)) n = Joinable t ↔
  n ≠ n0 ∧ view_of s n = Joinable t.
Proof.
  rewrite !view_joinable. simpl.
  destruct (decide (n = n0)) as [->|Hne].
  - rewrite lookup_delete_eq. split; [by intros (o & [=] & _)|by intros []].
  - rewrite lookup_delete_ne by done. split; [done|by intros []].
Qed.

Lemma wf_dtor s n0 o u w :
  wf s → objects s !! n0 = Some o → dtor_object o (env s) = (Ok u, w) →
  wf (set_env w (set_objects (delete n0) s)).
Proof.
  intros Hwf Hn0 Hd.
  pose proof (λ n t, view_delete_joinable s w n0 n t) as Hv.
  assert (Hs : (step (op_dtor n0) s).2 = set_env w (set_objects (delete n0) s)).
  { simpl. by rewrite Hn0, Hd. }
  assert (Hc : ∀ t, calls_on t w =
            calls_on t (env s) ++
            filter (λ e, ev_tid e = t) (disposed_by (op_dtor n0) s)).
  { intros t. rewrite <- calls_on_step. by rewrite Hs. }
  assert (Hother : ∀ n t, n ≠ n0 → view_of s n = Joinable t →
            filter (λ e, ev_tid e = t) (disposed_by (op_dtor n0) s) = []).
  { intros n t Hne Hn.
    destruct (disposed_by_cases (op_dtor n0) s Hwf)
      as [->|(n' & o' & t' & [= <-] & _ & Hv' & ->)]; [done|].
    rewrite filter_cons_False; [done|]. rewrite ev_tid_disposal. intros ->.
    by destruct Hne, (wf_one_owner s Hwf n n0 t). }
  split.
  - apply (wf_main s Hwf).
  - intros n. simpl. destruct (decide (n = n0)) as [->|Hne].
    + rewrite lookup_delete_eq. by intros [].
    + rewrite lookup_delete_ne by done. apply (wf_objects s Hwf).
  - intros n t [_ H]%Hv. apply (wf_started s Hwf n t H).
  - intros n1 n2 t [_ H1]%Hv [_ H2]%Hv. by apply (wf_one_owner s Hwf n1 n2 t).
  - intros n t [Hne H]%Hv. simpl. rewrite Hc, (Hother n t Hne H), app_nil_r.
    apply (wf_undisposed s Hwf n t H).
  - intros t. rewrite <- Hs. by apply at_most_once_step.
  - intros e. simpl. replace w with (env (step (op_dtor n0) s).2) by by rewrite Hs.
    rewrite step_calls, elem_of_app. intros [He|He].
    { apply (wf_calls_started s Hwf e He). }
    destruct (disposed_by_cases (op_dtor n0) s Hwf)
      as [E|(n' & o' & t' & _ & _ & Hv' & E)]; rewrite E in He.
    { by apply elem_of_nil in He. }
    apply list_elem_of_singleton in He as ->. rewrite ev_tid_disposal.
    apply (wf_started s Hwf n' t' Hv').
  - intros t Ht. simpl in Ht |- *. rewrite Hc.
    destruct (wf_accounted s Hwf t Ht) as [[n Hn]|H].
    + destruct (decide (n = n0)) as [->|Hne].
      * right. rewrite (wf_undisposed s Hwf n0 t Hn).
        apply view_joinable in Hn as (o' & Ho' & Ht').
        simpl. rewrite Ho'. rewrite Ht'.
        rewrite filter_cons_True by apply ev_tid_disposal. done.
      * left. exists n. by apply Hv.
    + right. destruct (disposed_by_cases (op_dtor n0) s Hwf)
        as [->|(n' & o' & t' & _ & _ & Hv' & ->)].
      { by rewrite filter_nil, app_nil_r. }
      rewrite filter_cons_False, filter_nil, app_nil_r; [done|].
      rewrite ev_tid_disposal. intros ->.
      rewrite (wf_undisposed s Hwf n' t Hv') in H. done.
Qed.


Lemma wf_step c s :
  wf s → returns (step c s).1 = true → wf (step c s).2.
Proof.
  intros Hwf. destruct c as [T [] | src | n | n | t]; simpl.
  - intros _. apply (wf_alloc_started s (pack (T:=T) _) Hwf).
    by rewrite handle_pack.
  - intros _. apply (wf_alloc_empty s (pack (T:=T) _) Hwf).
    by rewrite handle_pack.
  - destruct (objects s !! src) as [o|] eqn:Ho; [|done].
    intros _. pose proof (wf_move s src o Hwf Ho) as H.
    by destruct (move_object o).
  - destruct (objects s !! n) as [o|] eqn:Ho; [|done].
    destruct (dtor_object o (env s)) as [[u|e|] w] eqn:Hd; try done.
    intros _. by apply (wf_dtor s n o u w).
  - destruct (objects s !! n) as [o|] eqn:Ho; [|done].
    intros _. pose proof (step_get_id s n o Ho) as H. simpl in H.
    rewrite Ho in H. destruct (get_id_object o). by injection H as _ ->.
  - intros _. by apply (wf_same s).
Qed.

(** ** Whole programs *)

Lemma run_cons c p s :
  run (c :: p) s =
    if returns (step c s).1 then run p (step c s).2 else step c s.
Proof. simpl. by destruct (step c s) as [[] s']. Qed.

Lemma run_app p q s :
  run (p ++ q) s =
    if returns (run p s).1 then run q (run p s).2 else run p s.
Proof.
  revert s. induction p as [|c p IH]; intros s; [done|].
  rewrite <- app_comm_cons, !run_cons.
  destruct (returns (step c s).1) eqn:E; [apply IH|].
  rewrite E. by destruct (step c s).
Qed.

(** A program that returns keeps the invariant. *)
Lemma wf_run p s :
  wf s → returns (run p s).1 = true → wf (run p s).2.
Proof.
  revert s. induction p as [|c p IH]; intros s Hwf; [done|].
  rewrite run_cons. destruct (returns (step c s).1) eqn:E.
  - apply IH. by apply wf_step.
  - by rewrite E.
Qed.

(** However a program ends, no thread has had two calls made on it. *)
Lemma at_most_once_run p s t :
  wf s → length (calls_on t (env (run p s).2)) ≤ 1.
Proof.
  revert s. induction p as [|c p IH]; intros s Hwf.
  { apply (wf_at_most_once s Hwf). }
  rewrite run_cons. destruct (returns (step c s).1) eqn:E.
  - apply IH. by apply wf_step.
  - by apply at_most_once_step.
Qed.

(** Calls are only ever added. *)
Lemma run_calls p s :
  ∃ l, calls (env (run p s).2) = calls (env s) ++ l.
Proof.
  revert s. induction p as [|c p IH]; intros s.
  { exists []. by rewrite app_nil_r. }
  rewrite run_cons. destruct (returns (step c s).1).
  - destruct (IH (step c s).2) as [l Hl]. exists (disposed_by c s ++ l).
    by rewrite Hl, step_calls, app_assoc.
  - exists (disposed_by c s). apply step_calls.
Qed.

(** ** How the view of one wrapper changes *)


Lemma evolves_refl v : evolves v v.
Proof. destruct v; simpl; auto. Qed.

Lemma evolves_trans v1 v2 v3 : evolves v1 v2 → evolves v2 v3 → evolves v1 v3.
Proof.
  destruct v1; simpl; [done|..].
  - intros [-> | [-> | ->]]; simpl; [done|..].
    + intros [-> | ->]; auto.
    + intros ->; auto.
  - intros [-> | ->]; simpl; auto.
  - by intros ->.
Qed.

Lemma view_alloc s o n :
  n ≠ next_object s → view_of (alloc o s) n = view_of s n.
Proof.
  intros Hne. unfold view_of. simpl. rewrite lookup_insert_ne by done.
  destruct (objects s !! n); [done|]. repeat case_decide; try done; lia.
Qed.

Lemma view_unborn s n : wf s → next_object s ≤ n → view_of s n = Unborn.
Proof.
  intros Hwf Hn. unfold view_of.
  destruct (objects s !! n) as [o|] eqn:Ho.
  - pose proof (wf_objects s Hwf n (mk_is_Some _ _ Ho)). lia.
  - case_decide; [lia|done].
Qed.

Lemma view_insert_empty s n0 o n :
  is_Some (objects s !! n0) → std_thread.get_id (handle o) = None →
  evolves (view_of s n) (view_of (set_objects (insert n0 o) s) n).
Proof.
  intros [o0 Ho0] Ho. unfold view_of. simpl.
  destruct (decide (n = n0)) as [->|Hne].
  - rewrite lookup_insert_eq, Ho0, Ho.
    destruct (std_thread.get_id (handle o0)); simpl; auto.
  - rewrite lookup_insert_ne by done. apply evolves_refl.
Qed.

Lemma view_delete s w n0 n :
  wf s → is_Some (objects s !! n0) →
  evolves (view_of s n) (view_of (set_env w (set_objects (delete n0) s)) n).
Proof.
  intros Hwf Hn0. pose proof (wf_objects s Hwf n0 Hn0) as Hlt.
  destruct Hn0 as [o0 Ho0]. unfold view_of. simpl.
  destruct (decide (n = n0)) as [->|Hne].
  - rewrite lookup_delete_eq, Ho0. case_decide; [|lia].
    destruct (std_thread.get_id (handle o0)); simpl; auto.
  - rewrite lookup_delete_ne by done. apply evolves_refl.
Qed.

Lemma evolves_step c s n :
  wf s → evolves (view_of s n) (view_of (step c s).2 n).
Proof.
  intros Hwf.
  assert (Halloc : ∀ o s1, objects s1 = objects s → next_object s1 = next_object s →
            evolves (view_of s n) (view_of (alloc o s1) n)).
  { intros o s1 Ho Hn. destruct (decide (n = next_object s)) as [->|Hne].
    - by rewrite (view_unborn s) by done.
    - rewrite view_alloc by by rewrite Hn. unfold view_of. rewrite Ho, Hn.
      apply evolves_refl. }
  destruct c as [T [] | src | n0 | n0 | t]; simpl.
  - by apply Halloc.
  - by apply Halloc.
  - destruct (objects s !! src) as [o|] eqn:Ho; [|apply evolves_refl].
    destruct (move_object_old o) as [Hold _].
    destruct (move_object o) as [new old]; simpl in *.
    pose proof (wf_objects s Hwf src (mk_is_Some _ _ Ho)) as Hlt.
    destruct (decide (n = next_object s)) as [->|Hne].
    + by rewrite (view_unborn s) by done.
    + rewrite view_alloc by done. apply view_insert_empty; [eauto|].
      by rewrite Hold.
  - destruct (objects s !! n0) as [o|] eqn:Ho; [|apply evolves_refl].
    destruct (dtor_object o (env s)) as [[u|e|] w]; simpl;
      [|apply evolves_refl..].
    apply view_delete; eauto.
  - destruct (objects s !! n0) as [o|] eqn:Ho; [|apply evolves_refl].
    pose proof (step_get_id s n0 o Ho) as H. simpl in H. rewrite Ho in H.
    destruct (get_id_object o). injection H as _ ->. apply evolves_refl.
  - apply evolves_refl.
Qed.

Lemma evolves_run p s n :
  wf s → evolves (view_of s n) (view_of (run p s).2 n).
Proof.
  revert s. induction p as [|c p IH]; intros s Hwf; [apply evolves_refl|].
  rewrite run_cons. destruct (returns (step c s).1) eqn:E.
  - eapply evolves_trans; [by apply evolves_step|]. apply IH. by apply wf_step.
  - by apply evolves_step.
Qed.

(** ** A chain of owners *)


Lemma moved_from_ge T m k : m ≤ k → moved_from T m !! k = None.
Proof.
  induction m as [|m IH]; intros Hk; simpl; [apply lookup_empty|].
  rewrite lookup_insert_ne by lia. apply IH. lia.
Qed.

Lemma move_owner_object T t :
  move_object (owner_object T t) = (owner_object T t, empty_object T).
Proof. by destruct T. Qed.

Lemma chain_moves T m :
  run (op_ctor T true :: (op_move <$> seq 0 m)) init
  = (done, State (<[m := owner_object T 1]> (moved_from T m)) (S m) 2
             (World 0 ∅ [])).
Proof.
  induction m as [|m IH]; [done|].
  rewrite seq_S, fmap_app, app_comm_cons, run_app, IH. simpl.
  rewrite lookup_insert_eq, move_owner_object. unfold alloc, set_objects. simpl.
  by rewrite insert_insert_eq.
Qed.

Lemma destroy_moved_from T m no nt w :
  run (op_dtor <$> reverse (seq 0 m)) (State (moved_from T m) no nt w)
  = (done, State ∅ no nt w).
Proof.
  induction m as [|m IH]; [done|].
  rewrite seq_S, reverse_snoc, fmap_cons, run_cons. simpl.
  rewrite lookup_insert_eq.
  rewrite dtor_object_empty by by destruct T.
  unfold set_env, set_objects. simpl.
  by rewrite delete_insert_eq, delete_id by by apply moved_from_ge.
Qed.

Lemma chain_run T m :
  run (chain T m) init
  = (done, State ∅ (S m) 2
             (match T with
              | join => World 0 {[1]} [ev_join 1]
              | detach => World 0 ∅ [ev_detach 1]
              end)).
Proof.
  unfold chain. rewrite app_comm_cons, run_app, chain_moves. simpl returns.
  cbn [snd]. rewrite seq_S, reverse_snoc, fmap_cons, run_cons. simpl.
  rewrite lookup_insert_eq.
  rewrite (dtor_object_joinable _ _ 1) by by destruct T.
  assert (Htag : tag_of (owner_object T 1) = T) by by destruct T.
  rewrite Htag.
  assert (Hrest : ∀ x, delete m (<[m:=x]> (moved_from T m)) = moved_from T m).
  { intros x. by rewrite delete_insert_eq, delete_id by by apply moved_from_ge. }
  destruct T; simpl; unfold set_env, set_objects; simpl; rewrite Hrest;
    by rewrite destroy_moved_from.
Qed.

Lemma step_move s n o :
  objects s !! n = Some o →
  step (op_move n) s
  = (done, alloc o (set_objects (insert n (empty_object (tag_of o))) s)).
Proof. intros Ho. simpl. rewrite Ho. by destruct o as [[[i]]|[[i]]]. Qed.


Lemma reachable_wf s : reachable s → wf s.
Proof. intros (p & Hr & <-). apply wf_run; [apply wf_init|done]. Qed.

(** The only steps that change the view of a constructed wrapper are the
    move out of it and its destructor. *)
Lemma view_step c s n :
  wf s →
  view_of (step c s).2 n = view_of s n
  ∨ view_of s n = Unborn
  ∨ (c = op_move n ∧ view_of (step c s).2 n = Empty)
  ∨ (c = op_dtor n ∧ view_of (step c s).2 n = Destroyed).
Proof.
  intros Hwf.
  assert (Halloc : ∀ o s1, objects s1 = objects s → next_object s1 = next_object s →
            view_of (alloc o s1) n = view_of s n ∨ view_of s n = Unborn).
  { intros o s1 Ho Hn. destruct (decide (n = next_object s)) as [->|Hne].
    - right. by apply view_unborn.
    - left. rewrite view_alloc by by rewrite Hn. unfold view_of. by rewrite Ho, Hn. }
  destruct c as [T [] | src | n0 | n0 | t]; simpl.
  - destruct (Halloc (pack (T:=T) (Autothread (std_thread.Thread (Some (next_thread s)))))
                (spawn s).2) as [H|H]; auto.
  - destruct (Halloc (pack (T:=T) (Autothread std_thread.empty)) s) as [H|H]; auto.
  - destruct (objects s !! src) as [o|] eqn:Ho; [|by left].
    destruct (move_object_old o) as [Hold _].
    destruct (move_object o) as [new old]; simpl in *.
    pose proof (wf_objects s Hwf src (mk_is_Some _ _ Ho)) as Hlt.
    destruct (decide (n = next_object s)) as [->|Hne].
    { right; left. by apply view_unborn. }
    rewrite view_alloc by done.
    destruct (decide (n = src)) as [->|Hns].
    + right; right; left. split; [done|]. unfold view_of. simpl.
      by rewrite lookup_insert_eq, Hold.
    + left. unfold view_of. simpl. by rewrite lookup_insert_ne.
  - destruct (objects s !! n0) as [o|] eqn:Ho; [|by left].
    pose proof (wf_objects s Hwf n0 (mk_is_Some _ _ Ho)) as Hlt.
    destruct (dtor_object o (env s)) as [[u|e|] w]; simpl; [|by left..].
    destruct (decide (n = n0)) as [->|Hne].
    + right; right; right. split; [done|]. unfold view_of. simpl.
      rewrite lookup_delete_eq. by case_decide.
    + left. unfold view_of. simpl. by rewrite lookup_delete_ne.
  - destruct (objects s !! n0) as [o|] eqn:Ho; [|by left].
    pose proof (step_get_id s n0 o Ho) as H. simpl in H. rewrite Ho in H.
    destruct (get_id_object o). injection H as _ ->. by left.
  - by left.
Qed.

(** ** Some runs *)

(** A thread is wrapped to be joined, the wrapper is moved twice, and the
    three wrappers are destroyed: one call of [join]. *)
Example run_join_chain :
  run [op_ctor join true; op_move 0; op_move 1; op_get_id 2;
       op_dtor 2; op_dtor 1; op_dtor 0] init
  = (done, State ∅ 3 2 (World 0 {[1]} [ev_join 1])).
Proof. reflexivity. Qed.

(** The moved-from wrappers are destroyed first: still one call. *)
Example run_detach_chain :
  run [op_ctor detach true; op_move 0; op_dtor 0; op_move 1; op_dtor 1;
       op_dtor 2] init
  = (done, State ∅ 3 2 (World 0 ∅ [ev_detach 1])).
Proof. reflexivity. Qed.

(** Two threads, one policy each. *)
Example run_two_threads :
  calls (env (run [op_ctor join true; op_ctor detach true; op_move 1;
                   op_dtor 2; op_dtor 0; op_dtor 1] init).2)
  = [ev_detach 2; ev_join 1].
Proof. reflexivity. Qed.

(** What compiles: only the initialisation from an rvalue. *)
Example compiles_table :
  (λ T, compiles T <$> [init_from_lvalue; init_from_rvalue;
                        assign_from_lvalue; assign_from_rvalue])
    <$> [join; detach]
  = [[false; true; false; false]; [false; true; false; false]].
Proof. reflexivity. Qed.

(** ** The claims *)

(** C1. Whatever program is run over wrappers of either class, at most one
    call of [join] or [detach] is ever made on the handle of a thread; the
    destructor of a wrapper that owns a thread makes exactly one call, the
    one of its policy, and it is the only call on that thread; once every
    wrapper is destroyed, every started thread has had exactly one call;
    and a thread moved through [m] owners gets one call, not [m]. *)
Theorem disposal_exactly_once :
  (∀ p t, length (calls_on t (env (run p init).2)) ≤ 1)
  ∧ (∀ s n o t,
       reachable s →
       objects s !! n = Some o → std_thread.get_id (handle o) = Some t →
       calls_on t (env s) = []
       ∧ calls (env (step (op_dtor n) s).2)
         = calls (env s) ++ [disposal (tag_of o) t]
       ∧ calls_on t (env (step (op_dtor n) s).2) = [disposal (tag_of o) t])
  ∧ (∀ s t,
       reachable s → objects s = ∅ → 1 ≤ t < next_thread s →
       length (calls_on t (env s)) = 1)
  ∧ (∀ T m,
       (run (chain T m) init).1 = done
       ∧ objects (run (chain T m) init).2 = ∅
       ∧ calls (env (run (chain T m) init).2) = [disposal T 1]).
Proof.
  split; [|split; [|split]].
  - intros p t. apply at_most_once_run, wf_init.
  - intros s n o t Hwf%reachable_wf Ho Ht.
    assert (Hv : view_of s n = Joinable t) by (apply view_joinable; eauto).
    assert (Hd : disposed_by (op_dtor n) s = [disposal (tag_of o) t]).
    { simpl. by rewrite Ho, Ht. }
    split; [apply (wf_undisposed s Hwf n t Hv)|]. split.
    + by rewrite step_calls, Hd.
    + rewrite calls_on_step, Hd, (wf_undisposed s Hwf n t Hv). simpl.
      by rewrite filter_cons_True by apply ev_tid_disposal.
  - intros s t Hwf%reachable_wf Hempty Ht.
    destruct (wf_accounted s Hwf t Ht) as [[n Hn]|H]; [|done].
    apply view_joinable in Hn as (o & Ho & _).
    by rewrite Hempty, lookup_empty in Ho.
  - intros T m. rewrite chain_run. by destruct T.
Qed.

Lemma disposal_exactly_once_witness :
  calls_on 1 (env (step (op_dtor 2)
                     (run [op_ctor join true; op_move 0; op_move 1] init).2).2)
  = [ev_join 1].
Proof.
  destruct disposal_exactly_once as (_ & H & _).
  apply (H (run [op_ctor join true; op_move 0; op_move 1] init).2
           2 (owner_object join 1) 1).
  - exists [op_ctor join true; op_move 0; op_move 1]. split; reflexivity.
  - reflexivity.
  - reflexivity.
Defined.




(** C3, as the code has it. Neither class has an assignment operator that
    can be called: move assignment is not declared, copy assignment is
    implicitly deleted, and an assignment onto a wrapper does not compile.
    A wrapper that owns a thread therefore gives it up in two ways only:
    it is moved from, and the new wrapper owns the thread with no call
    made; or its destructor runs, and the call of its policy is made. After
    any step the thread is still owned and has had no call, or has had the
    call of the policy of its owner. *)
Theorem owned_thread_is_never_dropped :
  (∀ T,
     members (autothread_decl T) move_assignment = None
     ∧ members (autothread_decl T) copy_assignment = Some deleted
     ∧ compiles T assign_from_rvalue = false
     ∧ compiles T assign_from_lvalue = false)
  ∧ (∀ s c n o t,
       reachable s →
       objects s !! n = Some o → std_thread.get_id (handle o) = Some t →
       (view_of (step c s).2 n = Joinable t
        ∧ calls_on t (env (step c s).2) = [])
       ∨ (c = op_move n
          ∧ view_of (step c s).2 n = Empty
          ∧ view_of (step c s).2 (next_object s) = Joinable t
          ∧ calls_on t (env (step c s).2) = [])
       ∨ (c = op_dtor n
          ∧ calls_on t (env (step c s).2) = [disposal (tag_of o) t])).
Proof.
  split; [by intros []|].
  intros s c n o t Hwf%reachable_wf Ho Ht.
  assert (Hv : view_of s n = Joinable t) by (apply view_joinable; eauto).
  pose proof (wf_undisposed s Hwf n t Hv) as Hnone.
  assert (Hlt : n < next_object s) by (apply (wf_objects s Hwf); eauto).
  destruct (decide (c = op_dtor n)) as [->|Hnd].
  { right; right. split; [done|]. rewrite calls_on_step, Hnone. simpl.
    rewrite Ho, Ht. by rewrite filter_cons_True by apply ev_tid_disposal. }
  assert (Hcalls : calls_on t (env (step c s).2) = []).
  { rewrite calls_on_step, Hnone.
    destruct (disposed_by_cases c s Hwf) as [->|(n' & o' & t' & -> & _ & Hv' & ->)];
      [done|].
    rewrite filter_cons_False; [done|]. rewrite ev_tid_disposal. intros ->.
    destruct Hnd. by rewrite (wf_one_owner s Hwf n n' t). }
  destruct (view_step c s n Hwf) as [H|[H|[[-> H]|[-> _]]]]; [| |right; left|done].
  - left. by rewrite H.
  - by rewrite Hv in H.
  - repeat split; [done| |done]. simpl. rewrite Ho.
    destruct (move_object_new o) as [Hnew _].
    destruct (move_object o) as [new old]; simpl in *.
    apply view_joinable. exists new. simpl. rewrite lookup_insert_eq.
    split; [done|]. by rewrite Hnew.
Qed.

Lemma owned_thread_is_never_dropped_witness :
  (view_of (step (op_move 0) (run [op_ctor detach true] init).2).2 0 = Joinable 1
   ∧ calls_on 1 (env (step (op_move 0) (run [op_ctor detach true] init).2).2) = [])
  ∨ (op_move 0 = op_move 0
     ∧ view_of (step (op_move 0) (run [op_ctor detach true] init).2).2 0 = Empty
     ∧ view_of (step (op_move 0) (run [op_ctor detach true] init).2).2
         (next_object (run [op_ctor detach true] init).2) = Joinable 1
     ∧ calls_on 1 (env (step (op_move 0) (run [op_ctor detach true] init).2).2) = [])
  ∨ (op_move 0 = op_dtor 0
     ∧ calls_on 1 (env (step (op_move 0) (run [op_ctor detach true] init).2).2)
       = [disposal (tag_of (owner_object detach 1)) 1]).
Proof.
  destruct owned_thread_is_never_dropped as [_ H].
  apply (H (run [op_ctor detach true] init).2 (op_move 0) 0
           (owner_object detach 1) 1).
  - exists [op_ctor detach true]. split; reflexivity.
  - reflexivity.
  - reflexivity.
Defined.

(** C3, where the claim fails: there is no move assignment to speak of.
    [autothread<join>] has no move assignment operator, and the expression
    [b = std::move(a)] selects the deleted copy assignment and does not
    compile. *)
Lemma move_assignment_does_not_exist :
  members (autothread_decl join) move_assignment = None
  ∧ selected (members (autothread_decl join)) assign_from_rvalue = copy_assignment
  ∧ compiles join assign_from_rvalue = false.
Proof. repeat split. Qed.

(** C4. Move construction gives the new wrapper the handle of the source
    and leaves the source not joinable; it makes no call of [join] or
    [detach]; and the destructor of the moved-from source returns without
    making one. *)
Theorem move_ctor_transfers :
  (∀ T (a : autothread T) w,
     thrd (move_ctor a).1 = thrd a
     ∧ std_thread.joinable (thrd (move_ctor a).2) = false
     ∧ dtor (move_ctor a).2 w = (Ok (), w))
  ∧ (∀ s n o,
       reachable s → objects s !! n = Some o →
       (step (op_move n) s).1 = done
       ∧ env (step (op_move n) s).2 = env s
       ∧ objects (step (op_move n) s).2 !! next_object s = Some o
       ∧ view_of (step (op_move n) s).2 n = Empty
       ∧ (step (op_dtor n) (step (op_move n) s).2).1 = done
       ∧ env (step (op_dtor n) (step (op_move n) s).2).2 = env s).
Proof.
  split.
  - intros T [[i]] w. repeat split. by apply dtor_not_joinable.
  - intros s n o Hwf%reachable_wf Ho.
    assert (Hne : n ≠ next_object s).
    { pose proof (wf_objects s Hwf n (mk_is_Some _ _ Ho)). lia. }
    rewrite (step_move s n o Ho). cbn [fst snd].
    assert (Hn : objects (alloc o (set_objects (insert n (empty_object (tag_of o))) s)) !! n
              = Some (empty_object (tag_of o))).
    { simpl. by rewrite lookup_insert_ne, lookup_insert_eq. }
    assert (Hd : ∀ s', objects s' !! n = Some (empty_object (tag_of o)) →
              step (op_dtor n) s' = (done, set_env (env s') (set_objects (delete n) s'))).
    { intros s' Hs'. simpl. rewrite Hs'.
      by rewrite dtor_object_empty by by destruct (tag_of o). }
    rewrite (Hd _ Hn). repeat split.
    + simpl. by rewrite lookup_insert_eq.
    + unfold view_of. rewrite Hn. by destruct (tag_of o).
Qed.

Lemma move_ctor_transfers_witness :
  (step (op_move 0) (run [op_ctor join true] init).2).1 = done
  ∧ env (step (op_move 0) (run [op_ctor join true] init).2).2
    = env (run [op_ctor join true] init).2
  ∧ objects (step (op_move 0) (run [op_ctor join true] init).2).2
      !! next_object (run [op_ctor join true] init).2
    = Some (owner_object join 1)
  ∧ view_of (step (op_move 0) (run [op_ctor join true] init).2).2 0 = Empty
  ∧ (step (op_dtor 0) (step (op_move 0) (run [op_ctor join true] init).2).2).1 = done
  ∧ env (step (op_dtor 0) (step (op_move 0) (run [op_ctor join true] init).2).2).2
    = env (run [op_ctor join true] init).2.
Proof.
  destruct move_ctor_transfers as [_ H].
  apply (H (run [op_ctor join true] init).2 0 (owner_object join 1)).
  - exists [op_ctor join true]. split; reflexivity.
  - reflexivity.
Defined.

(** C5. In both classes the copy constructor is deleted and the copy
    assignment operator is implicitly deleted, so neither initialising a
    wrapper from an lvalue wrapper nor assigning one compiles; what a
    program can do at run time never leaves two wrappers owning one
    thread. *)
Theorem copying_is_rejected :
  (∀ T,
     members (autothread_decl T) copy_constructor = Some deleted
     ∧ members (autothread_decl T) copy_assignment = Some deleted
     ∧ compiles T init_from_lvalue = false
     ∧ compiles T assign_from_lvalue = false
     ∧ compiles T init_from_rvalue = true)
  ∧ (∀ s n1 n2 t,
       reachable s →
       view_of s n1 = Joinable t → view_of s n2 = Joinable t → n1 = n2).
Proof.
  split; [by intros []|].
  intros s n1 n2 t Hwf%reachable_wf. apply (wf_one_owner s Hwf).
Qed.

Lemma copying_is_rejected_witness : 1 = 1.
Proof.
  destruct copying_is_rejected as [_ H].
  apply (H (run [op_ctor join true; op_move 0] init).2 1 1 1).
  - exists [op_ctor join true; op_move 0]. split; reflexivity.
  - reflexivity.
  - reflexivity.
Defined.

(** C6. A wrapper constructed from a handle that is not joinable is
    constructed all the same, is itself not joinable, and its destructor
    returns without a call of [join] or [detach]. *)
Theorem ctor_of_empty_handle (T : tag) (t : std_thread.thread) (w : world) :
  std_thread.joinable t = false →
  std_thread.joinable (thrd (ctor T t).1) = false
  ∧ (ctor T t).2 = std_thread.empty
  ∧ dtor (ctor T t).1 w = (Ok (), w)
  ∧ ∀ s, run [op_ctor T false; op_dtor (next_object s)] s
         = (done, State (delete (next_object s) (objects s))
                    (S (next_object s)) (next_thread s) (env s)).
Proof.
  intros Hj. destruct t as [[i|]]; [done|]. repeat split.
  - by apply dtor_not_joinable.
  - intros s. simpl. rewrite lookup_insert_eq.
    rewrite dtor_object_empty by by rewrite handle_pack.
    unfold set_env, set_objects. simpl. by rewrite delete_insert_eq.
Qed.

Lemma ctor_of_empty_handle_witness :
  dtor (ctor detach std_thread.empty).1 (World 0 ∅ []) = (Ok (), World 0 ∅ []).
Proof.
  apply (ctor_of_empty_handle detach std_thread.empty (World 0 ∅ [])).
  reflexivity.
Defined.

(** C7, as the code has it. The destructor has no handler: when the call
    of [join] or [detach] it makes throws, whatever the failure, the
    exception meets the [noexcept] of the destructor and the program is
    terminated, with the world as the failed call left it. No exception
    leaves the destructor, and no step of a program ends by one. This is
    proved for the destructor over any behaviour of the member it calls,
    of which the destructor of each class is an instance. *)
Theorem dtor_failure_terminates (T : tag) (a : autothread T) (w : world) :
  dtor a w = dtor_of (dispose T) a w
  ∧ (∀ action e w',
       std_thread.joinable (thrd a) = true →
       action (thrd a) w = (Throw e, w') →
       dtor_of action a w = (Terminate, w'))
  ∧ (∀ action e, (dtor_of action a w).1 ≠ Throw e)
  ∧ (∀ e w',
       std_thread.joinable (thrd a) = true →
       dispose T (thrd a) w = (Throw e, w') →
       dtor a w = (Terminate, w'))
  ∧ (∀ e, (dtor a w).1 ≠ Throw e)
  ∧ (∀ c s e, (step c s).1 ≠ threw e).
Proof.
  assert (Hfail : ∀ action e w',
            std_thread.joinable (thrd a) = true →
            action (thrd a) w = (Throw e, w') →
            dtor_of action a w = (Terminate, w')).
  { intros action e w' Hj Hd.
    unfold dtor_of, noexcept, dtor_body_of, mbind, M_bind.
    by rewrite Hj, Hd. }
  split; [apply dtor_of_dispose|]. split; [done|]. split; [|split; [|split]].
  - intros action e. unfold dtor_of, noexcept.
    by destruct ((dtor_body_of action a ≫= λ a', std_thread.dtor (thrd a')) w)
      as [[]].
  - intros e w' Hj Hd. rewrite dtor_of_dispose. by apply (Hfail _ e).
  - apply dtor_never_throws.
  - intros c s e. apply step_never_throws.
Qed.

Lemma dtor_failure_terminates_witness :
  dtor_of (T:=detach) (failing no_such_process)
    (Autothread (std_thread.Thread (Some 1))) (World 0 ∅ [])
  = (Terminate, World 0 ∅ []).
Proof.
  destruct (dtor_failure_terminates detach (Autothread (std_thread.Thread (Some 1)))
              (World 0 ∅ [])) as (_ & H & _).
  apply (H (failing no_such_process) no_such_process (World 0 ∅ []));
    reflexivity.
Defined.

(** C7, where the claim fails: the call of [join] made by the destructor
    fails, and the destructor does not return; the failure is not
    swallowed. *)
Lemma join_failure_is_not_swallowed :
  std_thread.join (std_thread.Thread (Some 1)) (World 1 ∅ [])
  = (Throw resource_deadlock_would_occur, World 1 ∅ [ev_join 1])
  ∧ fst (dtor (T:=join) (Autothread (std_thread.Thread (Some 1))) (World 1 ∅ []))
    ≠ Ok ().
Proof. split; [reflexivity|discriminate]. Qed.

(** C8. A wrapper that no longer owns a thread, because it was moved from
    or destroyed, owns none after any further program; a wrapper that owns
    a thread owns that same thread until it is moved from or destroyed;
    the only operations that change what a constructed wrapper owns are
    the move out of it and its destructor; and a thread on which [join] or
    [detach] has been called is owned by no wrapper ever after. *)
Theorem never_joinable_again (s : state) (n : nat) :
  reachable s →
  (∀ q,
     view_of s n = Empty ∨ view_of s n = Destroyed →
     view_of (run q s).2 n = Empty ∨ view_of (run q s).2 n = Destroyed)
  ∧ (∀ q t,
       view_of s n = Joinable t →
       view_of (run q s).2 n = Joinable t
       ∨ view_of (run q s).2 n = Empty
       ∨ view_of (run q s).2 n = Destroyed)
  ∧ (∀ c,
       view_of s n ≠ Unborn →
       view_of (step c s).2 n = view_of s n
       ∨ (c = op_move n ∧ view_of (step c s).2 n = Empty)
       ∨ (c = op_dtor n ∧ view_of (step c s).2 n = Destroyed))
  ∧ (∀ q t,
       calls_on t (env s) ≠ [] → returns (run q s).1 = true →
       view_of (run q s).2 n ≠ Joinable t).
Proof.
  intros Hwf%reachable_wf. split; [|split; [|split]].
  - intros q Hv. pose proof (evolves_run q s n Hwf) as H.
    destruct Hv as [Hv|Hv]; rewrite Hv in H; simpl in H; auto.
  - intros q t Hv. pose proof (evolves_run q s n Hwf) as H.
    by rewrite Hv in H.
  - intros c Hv. destruct (view_step c s n Hwf) as [H|[H|H]]; auto. done.
  - intros q t Hcalls Hr Hv.
    pose proof (wf_undisposed _ (wf_run q s Hwf Hr) n t Hv) as Hnone.
    destruct (run_calls q s) as [l Hl].
    unfold calls_on in Hnone. rewrite Hl, calls_on_app in Hnone.
    by apply app_eq_nil in Hnone as [? _].
Qed.

Lemma never_joinable_again_witness :
  view_of (run [op_move 1; op_get_id 0; op_ctor join true]
             (run [op_ctor join true; op_move 0] init).2).2 0 = Empty
  ∨ view_of (run [op_move 1; op_get_id 0; op_ctor join true]
               (run [op_ctor join true; op_move 0] init).2).2 0 = Destroyed.
Proof.
  destruct (never_joinable_again (run [op_ctor join true; op_move 0] init).2 0)
    as (H & _).
  - exists [op_ctor join true; op_move 0]. split; reflexivity.
  - apply H. left. reflexivity.
Defined.

(** C9. [get_id] of a wrapper that owns a thread returns the id of that
    thread; ids can be compared, and two wrappers return the same one only
    if they are the same wrapper; the call can be made in every state in
    which the wrapper owns the thread, and it changes neither the wrapper
    nor anything else. *)
Theorem get_id_is_pure :
  (∀ T (a : autothread T) t,
     std_thread.get_id (thrd a) = Some t → get_id a = (Some t, a))
  ∧ (∀ i j : std_thread.id, i = j ∨ i ≠ j)
  ∧ (∀ s n t,
       reachable s → view_of s n = Joinable t →
       step (op_get_id n) s = (returned (Some t), s))
  ∧ (∀ s n1 n2 i,
       reachable s → i ≠ std_thread.default_id →
       (step (op_get_id n1) s).1 = returned i →
       (step (op_get_id n2) s).1 = returned i →
       n1 = n2).
Proof.
  split; [|split; [|split]].
  - intros T a t Ht. unfold get_id. by rewrite Ht.
  - intros i j. destruct (decide (i = j)); auto.
  - intros s n t _ (o & Ho & Ht)%view_joinable.
    by rewrite (step_get_id s n o Ho), Ht.
  - intros s n1 n2 i Hwf%reachable_wf Hi H1 H2.
    assert (Hown : ∀ n, (step (op_get_id n) s).1 = returned i →
              ∃ t, i = Some t ∧ view_of s n = Joinable t).
    { intros n. simpl. destruct (objects s !! n) as [o|] eqn:Ho; [|done].
      rewrite get_id_object_eq. simpl. intros [= <-].
      destruct (std_thread.get_id (handle o)) as [t|] eqn:Ht; [|done].
      exists t. split; [done|]. apply view_joinable. eauto. }
    destruct (Hown n1 H1) as (t1 & -> & Hv1), (Hown n2 H2) as (t2 & [= <-] & Hv2).
    by apply (wf_one_owner s Hwf n1 n2 t1).
Qed.

Lemma get_id_is_pure_witness :
  step (op_get_id 1) (run [op_ctor detach true; op_move 0] init).2
  = (returned (Some 1), (run [op_ctor detach true; op_move 0] init).2).
Proof.
  destruct get_id_is_pure as (_ & _ & H & _).
  apply (H (run [op_ctor detach true; op_move 0] init).2 1 1).
  - exists [op_ctor detach true; op_move 0]. split; reflexivity.
  - reflexivity.
Defined.

(** C10. [get_id] of a wrapper whose handle is empty returns, it does not
    throw, and what it returns is the default-constructed
    [std::thread::id]; wrapper and state are left as they were. *)
Theorem get_id_of_empty_wrapper :
  (∀ T (a : autothread T),
     std_thread.joinable (thrd a) = false →
     get_id a = (std_thread.default_id, a))
  ∧ (∀ s n,
       view_of s n = Empty →
       step (op_get_id n) s = (returned std_thread.default_id, s)).
Proof.
  split.
  - by intros T [[[t|]]].
  - intros s n Hv. unfold view_of in Hv.
    destruct (objects s !! n) as [o|] eqn:Ho; [|by case_decide].
    rewrite (step_get_id s n o Ho).
    by destruct (std_thread.get_id (handle o)).
Qed.

Lemma get_id_of_empty_wrapper_witness :
  step (op_get_id 0) (run [op_ctor join true; op_move 0] init).2
  = (returned std_thread.default_id, (run [op_ctor join true; op_move 0] init).2).
Proof.
  destruct get_id_of_empty_wrapper as [_ H].
  apply (H (run [op_ctor join true; op_move 0] init).2 0). reflexivity.
Defined.

(** ** Further properties of the destructor *)

Lemma dtor_object_this_thread o w :
  this_thread (dtor_object o w).2 = this_thread w.
Proof.
  destruct (std_thread.get_id (handle o)) as [t|] eqn:E.
  - rewrite (dtor_object_joinable o w t E).
    destruct (tag_of o); [by case_decide|done].
  - by rewrite dtor_object_empty.
Qed.

Lemma step_terminated c s :
  (step c s).1 = terminated
  ↔ ∃ n o, c = op_dtor n ∧ objects s !! n = Some o ∧ tag_of o = join
           ∧ std_thread.get_id (handle o) = Some (this_thread (env s)).
Proof.
  split.
  - destruct c as [T [] | src | n | n | t]; simpl; try done.
    + destruct (objects s !! src) as [o|]; [|done]. by destruct (move_object o).
    + destruct (objects s !! n) as [o|] eqn:Ho; [|done].
      destruct (std_thread.get_id (handle o)) as [t|] eqn:E.
      * rewrite (dtor_object_joinable o _ t E).
        destruct (tag_of o) eqn:Htag; [|done].
        case_decide; [|done]. subst t. intros _. by exists n, o.
      * by rewrite dtor_object_empty.
    + destruct (objects s !! n) as [o|]; [|done]. by rewrite get_id_object_eq.
  - intros (n & o & -> & Ho & Htag & Hid). simpl.
    by rewrite Ho, (dtor_object_joinable o _ _ Hid), Htag, decide_True.
Qed.

(** X1. The destructor ends the program exactly when the handle is
    joinable and the call of [join] or [detach] it makes does not return.
    The destructor of the member [thrd], which ends the program on a
    joinable handle, is never the cause: whenever the body returns it has
    left the handle not joinable. This holds over any behaviour of the
    member called that leaves the handle not joinable when it returns, and
    so of the destructor of each class. *)
Theorem terminates_iff_call_fails (T : tag) (a : autothread T) (w : world)
    (action : std_thread.thread → M std_thread.thread) :
  leaves_empty (action (thrd a) w) = true →
  ((dtor_of action a w).1 = Terminate
   ↔ std_thread.joinable (thrd a) = true ∧ ∀ t, (action (thrd a) w).1 ≠ Ok t)
  ∧ (∀ a' w',
       dtor_body_of action a w = (Ok a', w') →
       std_thread.joinable (thrd a') = false
       ∧ std_thread.dtor (thrd a') w' = (Ok (), w'))
  ∧ ((dtor a w).1 = Terminate
     ↔ std_thread.joinable (thrd a) = true
       ∧ ∀ t, (dispose T (thrd a) w).1 ≠ Ok t).
Proof.
  assert (Hgen : ∀ act,
            leaves_empty (act (thrd a) w) = true →
            ((dtor_of act a w).1 = Terminate
             ↔ std_thread.joinable (thrd a) = true
               ∧ ∀ t, (act (thrd a) w).1 ≠ Ok t)).
  { intros act Hpost. unfold leaves_empty in Hpost.
    unfold dtor_of, noexcept, dtor_body_of, mbind, M_bind, mret, M_ret.
    destruct (std_thread.joinable (thrd a)) eqn:Hj.
    - destruct (act (thrd a) w) as [[t'|e|] w']; simpl in *.
      + apply negb_true_iff in Hpost. unfold std_thread.dtor. simpl.
        rewrite Hpost. simpl. split; [done|]. intros [_ H]. by destruct (H t').
      + split; [|done]. by intros _.
      + split; [|done]. by intros _.
    - unfold std_thread.dtor. simpl. rewrite Hj. simpl.
      split; [done|]. by intros [? _]. }
  intros Hpost. split; [by apply Hgen|]. split.
  - intros a' w'. unfold leaves_empty in Hpost.
    unfold dtor_body_of, mbind, M_bind, mret, M_ret.
    destruct (std_thread.joinable (thrd a)) eqn:Hj.
    + destruct (action (thrd a) w) as [[t'|e|] w'']; simpl in *; try done.
      intros [= <- <-]. apply negb_true_iff in Hpost. simpl.
      split; [done|]. unfold std_thread.dtor. by rewrite Hpost.
    + intros [= <- <-]. split; [done|]. unfold std_thread.dtor. by rewrite Hj.
  - rewrite dtor_of_dispose. apply Hgen.
    unfold leaves_empty. destruct a as [[[i|]]]; destruct T; simpl;
      unfold std_thread.join; simpl; try done.
    by case_decide.
Qed.

Lemma terminates_iff_call_fails_witness :
  (dtor_of (T:=join) (failing no_such_process)
     (Autothread (std_thread.Thread (Some 1))) (World 0 ∅ [])).1 = Terminate
  ↔ std_thread.joinable (thrd (T:=join) (Autothread (std_thread.Thread (Some 1))))
    = true
    ∧ ∀ t, (failing no_such_process
              (thrd (T:=join) (Autothread (std_thread.Thread (Some 1))))
              (World 0 ∅ [])).1 ≠ Ok t.
Proof.
  destruct (terminates_iff_call_fails join (Autothread (std_thread.Thread (Some 1)))
              (World 0 ∅ []) (failing no_such_process)) as [H _].
  - reflexivity.
  - apply H.
Defined.

(** X2. The destructor body can be run again on what it left: the second
    run finds the handle not joinable, makes no call and changes
    nothing. *)
Theorem dtor_body_runs_once (T : tag) (a a' : autothread T) (w w' : world) :
  dtor_body a w = (Ok a', w') →
  dtor_body a' w' = (Ok a', w') ∧ dtor a' w' = (Ok (), w').
Proof.
  intros H.
  assert (Hj : std_thread.joinable (thrd a') = false).
  { destruct a as [[[t|]]].
    - destruct T; simpl in H;
        unfold dtor_body_join, dtor_body_detach, mbind, M_bind,
          std_thread.join, std_thread.detach in H; simpl in H.
      + case_decide; [done|]. by injection H as <- <-.
      + by injection H as <- <-.
    - destruct T; by injection H as <- <-. }
  split; [|by apply dtor_not_joinable].
  destruct a' as [[[t|]]]; [done|]. by destruct T.
Qed.

Lemma dtor_body_runs_once_witness :
  dtor_body (T:=detach) (Autothread std_thread.empty) (World 0 ∅ [ev_detach 1])
  = (Ok (Autothread std_thread.empty), World 0 ∅ [ev_detach 1]).
Proof.
  apply (dtor_body_runs_once detach (Autothread (std_thread.Thread (Some 1)))
           (Autothread std_thread.empty) (World 0 ∅ []) (World 0 ∅ [ev_detach 1])).
  reflexivity.
Defined.

(** ** Further properties of programs *)

(** A step leaves alone every wrapper it is not a move out of or the
    destructor of. *)
Lemma step_frame c s k o :
  wf s → objects s !! k = Some o →
  c ≠ op_move k → c ≠ op_dtor k →
  objects (step c s).2 !! k = Some o.
Proof.
  intros Hwf Hk Hm Hd.
  assert (Hlt : k ≠ next_object s).
  { pose proof (wf_objects s Hwf k (mk_is_Some _ _ Hk)). lia. }
  destruct c as [T [] | src | n | n | t]; simpl.
  - by rewrite lookup_insert_ne.
  - by rewrite lookup_insert_ne.
  - destruct (objects s !! src) as [o'|] eqn:Ho; [|done].
    destruct (move_object o') as [new old]. simpl.
    rewrite lookup_insert_ne by done. rewrite lookup_insert_ne by congruence. done.
  - destruct (objects s !! n) as [o'|] eqn:Ho; [|done].
    destruct (dtor_object o' (env s)) as [[u|e|] w]; simpl; try done.
    rewrite lookup_delete_ne by congruence. done.
  - destruct (objects s !! n) as [o'|] eqn:Ho; [|done].
    by rewrite get_id_object_eq; simpl; rewrite insert_id.
  - done.
Qed.

(** What a step that returns does to the runtime: nothing to the calls and
    the finished threads, or one [join] together with the wait for its
    thread, or one [detach] and no wait. *)
Lemma step_env c s :
  returns (step c s).1 = true →
  (finished (env (step c s).2) = finished (env s)
   ∧ calls (env (step c s).2) = calls (env s))
  ∨ (∃ t, finished (env (step c s).2) = {[t]} ∪ finished (env s)
          ∧ calls (env (step c s).2) = calls (env s) ++ [ev_join t])
  ∨ (∃ t, finished (env (step c s).2) = finished (env s)
          ∧ calls (env (step c s).2) = calls (env s) ++ [ev_detach t]).
Proof.
  destruct c as [T [] | src | n | n | t]; simpl; try by left.
  - destruct (objects s !! src) as [o|]; [|by left].
    destruct (move_object o). by left.
  - destruct (objects s !! n) as [o|] eqn:Ho; [|by left].
    destruct (std_thread.get_id (handle o)) as [t|] eqn:E.
    + rewrite (dtor_object_joinable o _ t E).
      destruct (tag_of o); [case_decide; [done|]|]; intros _; right.
      * left. by exists t.
      * right. by exists t.
    + rewrite dtor_object_empty by done. by left.
  - destruct (objects s !! n) as [o|]; [|by left].
    rewrite get_id_object_eq. by left.
Qed.

Lemma finished_iff_joined_run p s :
  (∀ t, t ∈ finished (env s) ↔ ev_join t ∈ calls (env s)) →
  returns (run p s).1 = true →
  ∀ t, t ∈ finished (env (run p s).2) ↔ ev_join t ∈ calls (env (run p s).2).
Proof.
  revert s. induction p as [|c p IH]; intros s HJ; [done|].
  rewrite run_cons. destruct (returns (step c s).1) eqn:E; [|by rewrite E].
  apply IH. intros t.
  destruct (step_env c s E) as [[-> ->]|[(t' & -> & ->)|(t' & -> & ->)]].
  - apply HJ.
  - rewrite elem_of_union, elem_of_singleton, elem_of_app, list_elem_of_singleton.
    rewrite HJ. split.
    + intros [->|H]; [by right|by left].
    + intros [H|[= ->]]; [by right|by left].
  - rewrite elem_of_app, list_elem_of_singleton, HJ.
    split; [auto|]. by intros [H|H].
Qed.

Lemma two_calls_on l (e1 e2 : event) t :
  e1 ∈ l → e2 ∈ l → e1 ≠ e2 → ev_tid e1 = t → ev_tid e2 = t →
  2 ≤ length (filter (λ e, ev_tid e = t) l).
Proof.
  intros H1 H2 Hne Ht1 Ht2.
  assert (H1' : e1 ∈ filter (λ e, ev_tid e = t) l) by by apply list_elem_of_filter.
  assert (H2' : e2 ∈ filter (λ e, ev_tid e = t) l) by by apply list_elem_of_filter.
  destruct (filter (λ e, ev_tid e = t) l) as [|x [|y f]]; simpl; [|..|lia].
  - by apply elem_of_nil in H1'.
  - apply list_elem_of_singleton in H1', H2'. congruence.
Qed.

(** X3. Between the operations of a program the threads that have been
    waited for are exactly the threads on which [join] was called: every
    wrapper of [autothread<join>] that was destroyed with a thread waited
    until that thread had completed, and nothing else waits. A thread that
    was detached has not been waited for. *)
Theorem finished_iff_joined (s : state) :
  reachable s →
  (∀ t, t ∈ finished (env s) ↔ ev_join t ∈ calls (env s))
  ∧ (∀ t, ev_detach t ∈ calls (env s) → t ∉ finished (env s)).
Proof.
  intros Hr.
  assert (HJ : ∀ t, t ∈ finished (env s) ↔ ev_join t ∈ calls (env s)).
  { destruct Hr as (p & Hp & <-). apply finished_iff_joined_run; [|done].
    intros t. simpl. by rewrite elem_of_nil, elem_of_empty. }
  split; [done|].
  intros t Hd Hf%HJ.
  pose proof (wf_at_most_once s (reachable_wf s Hr) t) as Hle.
  pose proof (two_calls_on _ _ _ t Hd Hf) as H2.
  unfold calls_on in Hle. specialize (H2 ltac:(done) eq_refl eq_refl). lia.
Qed.

Lemma finished_iff_joined_witness :
  1 ∈ finished (env (run [op_ctor join true; op_move 0; op_dtor 1] init).2)
  ↔ ev_join 1 ∈ calls (env (run [op_ctor join true; op_move 0; op_dtor 1] init).2).
Proof.
  destruct (finished_iff_joined
              (run [op_ctor join true; op_move 0; op_dtor 1] init).2) as [H _].
  - exists [op_ctor join true; op_move 0; op_dtor 1]. split; reflexivity.
  - apply H.
Defined.

(** The thread [t] is owned by a wrapper of class [T] and no call has been
    made on it, or the one call made on it is the call of [T]. *)
Lemma policy_step c s T t :
  wf s →
  (∃ n o, objects s !! n = Some o ∧ std_thread.get_id (handle o) = Some t
          ∧ tag_of o = T ∧ calls_on t (env s) = [])
  ∨ calls_on t (env s) = [disposal T t] →
  (∃ n o, objects (step c s).2 !! n = Some o
          ∧ std_thread.get_id (handle o) = Some t
          ∧ tag_of o = T ∧ calls_on t (env (step c s).2) = [])
  ∨ calls_on t (env (step c s).2) = [disposal T t].
Proof.
  intros Hwf [(n & o & Ho & Ht & Htag & Hnone)|Hone].
  - assert (Hv : view_of s n = Joinable t) by (apply view_joinable; eauto).
    destruct (decide (c = op_dtor n)) as [->|Hnd].
    { right. rewrite calls_on_step, Hnone. simpl. rewrite Ho, Ht, Htag.
      by rewrite filter_cons_True by apply ev_tid_disposal. }
    assert (Hcalls : calls_on t (env (step c s).2) = []).
    { rewrite calls_on_step, Hnone.
      destruct (disposed_by_cases c s Hwf)
        as [->|(n' & o' & t' & -> & _ & Hv' & ->)]; [done|].
      rewrite filter_cons_False; [done|]. rewrite ev_tid_disposal. intros ->.
      destruct Hnd. by rewrite (wf_one_owner s Hwf n n' t). }
    left. destruct (decide (c = op_move n)) as [->|Hnm].
    + exists (next_object s), o. rewrite (step_move s n o Ho) in Hcalls |- *.
      repeat split; try done. simpl. by rewrite lookup_insert_eq.
    + exists n, o. repeat split; try done. by apply step_frame.
  - right. pose proof (at_most_once_step c s t Hwf) as Hle.
    rewrite calls_on_step, Hone in Hle |- *.
    destruct (filter _ (disposed_by c s)); [done|simpl in Hle; lia].
Qed.

Lemma policy_run q s T t :
  wf s →
  (∃ n o, objects s !! n = Some o ∧ std_thread.get_id (handle o) = Some t
          ∧ tag_of o = T ∧ calls_on t (env s) = [])
  ∨ calls_on t (env s) = [disposal T t] →
  (∃ n o, objects (run q s).2 !! n = Some o
          ∧ std_thread.get_id (handle o) = Some t
          ∧ tag_of o = T ∧ calls_on t (env (run q s).2) = [])
  ∨ calls_on t (env (run q s).2) = [disposal T t].
Proof.
  revert s. induction q as [|c q IH]; intros s Hwf HP; [done|].
  rewrite run_cons. destruct (returns (step c s).1) eqn:E.
  - apply IH; [by apply wf_step|by apply policy_step].
  - by apply policy_step.
Qed.

(** X4. The policy follows the thread. If a wrapper of class [T] owns a
    thread, then after any further program, through any number of move
    constructions and however the program ends, the thread is still owned
    by a wrapper of the same class [T] and no call has been made on it, or
    exactly one call has been made on it and it is the call of [T]: a
    thread wrapped to be joined is never detached, and a thread wrapped to
    be detached is never joined. *)
Theorem policy_follows_thread (s : state) (n : nat) (o : object) (t : tid)
    (q : list op) :
  reachable s →
  objects s !! n = Some o → std_thread.get_id (handle o) = Some t →
  (∃ n' o', objects (run q s).2 !! n' = Some o'
            ∧ std_thread.get_id (handle o') = Some t
            ∧ tag_of o' = tag_of o
            ∧ calls_on t (env (run q s).2) = [])
  ∨ calls_on t (env (run q s).2) = [disposal (tag_of o) t].
Proof.
  intros Hwf%reachable_wf Ho Ht. apply policy_run; [done|].
  left. exists n, o. repeat split; try done.
  apply (wf_undisposed s Hwf n t), view_joinable. eauto.
Qed.

Lemma policy_follows_thread_witness :
  (∃ n' o',
     objects (run [op_move 0; op_move 1; op_dtor 0; op_dtor 2]
                (run [op_ctor detach true] init).2).2 !! n' = Some o'
     ∧ std_thread.get_id (handle o') = Some 1
     ∧ tag_of o' = tag_of (owner_object detach 1)
     ∧ calls_on 1 (env (run [op_move 0; op_move 1; op_dtor 0; op_dtor 2]
                          (run [op_ctor detach true] init).2).2) = [])
  ∨ calls_on 1 (env (run [op_move 0; op_move 1; op_dtor 0; op_dtor 2]
                       (run [op_ctor detach true] init).2).2)
    = [disposal (tag_of (owner_object detach 1)) 1].
Proof.
  apply (policy_follows_thread (run [op_ctor detach true] init).2 0
           (owner_object detach 1) 1).
  - exists [op_ctor detach true]. split; reflexivity.
  - reflexivity.
  - reflexivity.
Defined.

Lemma step_this_thread c s :
  switches c = false →
  this_thread (env (step c s).2) = this_thread (env s).
Proof.
  destruct c as [T [] | src | n | n | t]; simpl; try done.
  - destruct (objects s !! src) as [o|]; [|done]. by destruct (move_object o).
  - destruct (objects s !! n) as [o|]; [|done]. intros _.
    rewrite <- (dtor_object_this_thread o (env s)).
    by destruct (dtor_object o (env s)) as [[]].
  - destruct (objects s !! n) as [o|]; [|done]. by rewrite get_id_object_eq.
Qed.

Lemma step_next_thread c s : next_thread s ≤ next_thread (step c s).2.
Proof.
  destruct c as [T [] | src | n | n | t]; simpl; try lia.
  - destruct (objects s !! src) as [o|]; simpl; [|lia].
    destruct (move_object o); simpl. lia.
  - destruct (objects s !! n) as [o|]; simpl; [|lia].
    by destruct (dtor_object o (env s)) as [[]].
  - destruct (objects s !! n) as [o|]; simpl; [|lia].
    by rewrite get_id_object_eq.
Qed.

(** A thread that is owned after a step was owned before it or has just
    been started. *)
Lemma owner_step c s n t :
  wf s → view_of (step c s).2 n = Joinable t →
  (∃ n', view_of s n' = Joinable t) ∨ t = next_thread s.
Proof.
  intros Hwf. destruct c as [T [] | src | n0 | n0 | t0]; simpl.
  - intros [[_ H]|[_ H]]%view_alloc_joinable.
    + rewrite handle_pack in H. simpl in H. right. congruence.
    + left. by exists n.
  - intros [[_ H]|[_ H]]%view_alloc_joinable.
    + by rewrite handle_pack in H.
    + left. by exists n.
  - destruct (objects s !! src) as [o|] eqn:Ho; [|left; by exists n].
    pose proof (wf_objects s Hwf src (mk_is_Some _ _ Ho)) as Hlt.
    pose proof (view_move_joinable s src o n t Ho ltac:(lia)) as Hv.
    destruct (move_object o). simpl in *.
    intros [[_ H]|(_ & _ & H)]%Hv; left; eauto.
  - destruct (objects s !! n0) as [o|] eqn:Ho; [|left; by exists n].
    destruct (dtor_object o (env s)) as [[u|e|] w]; simpl;
      [|left; by exists n..].
    intros [_ H]%view_delete_joinable. left. by exists n.
  - destruct (objects s !! n0) as [o|] eqn:Ho; [|left; by exists n].
    pose proof (step_get_id s n0 o Ho) as Hs. simpl in Hs. rewrite Ho in Hs.
    rewrite Hs. intros H. left. by exists n.
  - intros H. left. by exists n.
Qed.

Lemma no_terminate_run p s :
  wf s →
  this_thread (env s) < next_thread s →
  (∀ n, view_of s n ≠ Joinable (this_thread (env s))) →
  forallb (λ c, negb (switches c)) p = true →
  (run p s).1 ≠ terminated.
Proof.
  revert s. induction p as [|c p IH]; intros s Hwf Hlt Hfree Hp; [done|].
  simpl in Hp. apply andb_prop in Hp as [Hc%negb_true_iff Hp].
  assert (Hstep : (step c s).1 ≠ terminated).
  { intros (n & o & -> & Ho & _ & Hid)%step_terminated.
    apply (Hfree n), view_joinable. eauto. }
  rewrite run_cons. destruct (returns (step c s).1) eqn:E; [|done].
  pose proof (step_this_thread c s Hc) as Hme.
  apply IH; [by apply wf_step|..|done]; rewrite Hme.
  - pose proof (step_next_thread c s). lia.
  - intros n [[n' Hn']|Hn]%owner_step; [|lia|done]. by apply (Hfree n').
Qed.

(** X5. A program all of whose operations are executed by the main thread
    never ends in [std::terminate]: whatever wrappers of either class it
    constructs, moves and destroys, and in whatever order, every destructor
    returns. *)
Theorem main_thread_never_terminates (p : list op) :
  forallb (λ c, negb (switches c)) p = true →
  (run p init).1 ≠ terminated.
Proof.
  intros Hp. apply no_terminate_run; [apply wf_init|simpl; lia| |done].
  intros n (o & Ho & _)%view_joinable. simpl in Ho. by rewrite lookup_empty in Ho.
Qed.

Lemma main_thread_never_terminates_witness :
  (run [op_ctor join true; op_ctor detach true; op_move 0; op_dtor 0;
        op_dtor 2; op_dtor 1] init).1 ≠ terminated.
Proof.
  apply (main_thread_never_terminates
           [op_ctor join true; op_ctor detach true; op_move 0; op_dtor 0;
            op_dtor 2; op_dtor 1]).
  reflexivity.
Defined.

(** While every live wrapper is an [autothread<detach>], a step that
    constructs no [autothread<join>] keeps it so, waits for no thread,
    makes no call other than [detach], and does not end the program. *)
Lemma detach_step c s :
  constructs_join c = false →
  (∀ n o, objects s !! n = Some o → tag_of o = detach) →
  (∀ n o, objects (step c s).2 !! n = Some o → tag_of o = detach)
  ∧ finished (env (step c s).2) = finished (env s)
  ∧ Forall (λ e, e = ev_detach (ev_tid e)) (disposed_by c s)
  ∧ (step c s).1 ≠ terminated.
Proof.
  intros Hc HD. split; [|split; [|split]].
  - destruct c as [T b | src | n0 | n0 | t0].
    + destruct T; [done|]. intros n o.
      destruct b; simpl; (destruct (decide (n = next_object s)) as [->|Hne];
        [rewrite lookup_insert_eq; by intros [= <-]
        |rewrite lookup_insert_ne by done; apply HD]).
    + simpl. destruct (objects s !! src) as [o'|] eqn:Ho; [|apply HD].
      destruct (move_object_new o') as [_ Hn], (move_object_old o') as [_ Hm].
      rewrite (HD _ _ Ho) in Hn, Hm.
      destruct (move_object o') as [new old]. simpl in *. intros n o.
      destruct (decide (n = next_object s)) as [->|Hne].
      { rewrite lookup_insert_eq. by intros [= <-]. }
      rewrite lookup_insert_ne by done.
      destruct (decide (n = src)) as [->|Hns].
      { rewrite lookup_insert_eq. by intros [= <-]. }
      rewrite lookup_insert_ne by done. apply HD.
    + simpl. destruct (objects s !! n0) as [o'|] eqn:Ho; [|apply HD].
      destruct (dtor_object o' (env s)) as [[u|e|] w]; simpl; try apply HD.
      intros n o. destruct (decide (n = n0)) as [->|Hne].
      { by rewrite lookup_delete_eq. }
      rewrite lookup_delete_ne by done. apply HD.
    + simpl. destruct (objects s !! n0) as [o'|] eqn:Ho; [|apply HD].
      pose proof (step_get_id s n0 o' Ho) as Hs. simpl in Hs. rewrite Ho in Hs.
      rewrite Hs. apply HD.
    + apply HD.
  - destruct c as [T [] | src | n0 | n0 | t0]; simpl; try done.
    + destruct (objects s !! src) as [o'|]; [|done]. by destruct (move_object o').
    + destruct (objects s !! n0) as [o'|] eqn:Ho; [|done].
      destruct (std_thread.get_id (handle o')) as [t|] eqn:E.
      * by rewrite (dtor_object_joinable o' _ t E), (HD _ _ Ho).
      * by rewrite dtor_object_empty.
    + destruct (objects s !! n0) as [o'|]; [|done]. by rewrite get_id_object_eq.
  - destruct c as [T b | src | n0 | n0 | t0]; simpl; try done.
    destruct (objects s !! n0) as [o'|] eqn:Ho; [|done].
    destruct (std_thread.get_id (handle o')) as [t|]; [|done].
    rewrite (HD _ _ Ho). by repeat constructor.
  - intros (n & o & -> & Ho & Htag & _)%step_terminated.
    by rewrite (HD _ _ Ho) in Htag.
Qed.

Lemma detach_run p s :
  forallb (λ c, negb (constructs_join c)) p = true →
  (∀ n o, objects s !! n = Some o → tag_of o = detach) →
  (run p s).1 ≠ terminated
  ∧ finished (env (run p s).2) = finished (env s)
  ∧ ∃ l, calls (env (run p s).2) = calls (env s) ++ l
         ∧ Forall (λ e, e = ev_detach (ev_tid e)) l.
Proof.
  revert s. induction p as [|c p IH]; intros s Hp HD.
  { repeat split; [done|]. exists []. by rewrite app_nil_r. }
  simpl in Hp. apply andb_prop in Hp as [Hc%negb_true_iff Hp].
  destruct (detach_step c s Hc HD) as (HD' & Hf & Hl & Ht).
  rewrite run_cons. destruct (returns (step c s).1) eqn:E.
  - destruct (IH (step c s).2 Hp HD') as (Ht' & Hf' & l & Hc' & Hl').
    repeat split; [done|congruence|].
    exists (disposed_by c s ++ l). split; [|by apply Forall_app].
    by rewrite Hc', step_calls, app_assoc.
  - repeat split; [done..|]. exists (disposed_by c s). split; [|done].
    apply step_calls.
Qed.

(** X6. A program that constructs wrappers of [autothread<detach>] only
    never ends in [std::terminate], whichever threads execute its
    operations, waits for no thread at all, and every call it makes is a
    [detach]. *)
Theorem detach_only_never_waits (p : list op) :
  forallb (λ c, negb (constructs_join c)) p = true →
  (run p init).1 ≠ terminated
  ∧ finished (env (run p init).2) = ∅
  ∧ Forall (λ e, e = ev_detach (ev_tid e)) (calls (env (run p init).2)).
Proof.
  intros Hp. destruct (detach_run p init Hp) as (Ht & Hf & l & Hc & Hl).
  { intros n o Ho. simpl in Ho. by rewrite lookup_empty in Ho. }
  repeat split; [done|done|]. by rewrite Hc.
Qed.

Lemma detach_only_never_waits_witness :
  (run [op_ctor detach true; op_run_on 1; op_move 0; op_dtor 1; op_dtor 0] init).1
  ≠ terminated
  ∧ finished (env (run [op_ctor detach true; op_run_on 1; op_move 0;
                        op_dtor 1; op_dtor 0] init).2) = ∅
  ∧ Forall (λ e, e = ev_detach (ev_tid e))
      (calls (env (run [op_ctor detach true; op_run_on 1; op_move 0;
                        op_dtor 1; op_dtor 0] init).2)).
Proof.
  apply (detach_only_never_waits
           [op_ctor detach true; op_run_on 1; op_move 0; op_dtor 1; op_dtor 0]).
  reflexivity.
Defined.

(** ** Leaving a scope *)

Lemma step_dtor_returns s n :
  live s n = true → joins_itself s n = false →
  ∃ w, step (op_dtor n) s = (done, set_env w (set_objects (delete n) s))
       ∧ this_thread w = this_thread (env s)
       ∧ calls w = calls (env s) ++ disposed_by (op_dtor n) s.
Proof.
  unfold live, joins_itself. simpl.
  destruct (objects s !! n) as [o|] eqn:Ho; [intros _|done].
  destruct (std_thread.get_id (handle o)) as [t|] eqn:E.
  - rewrite (dtor_object_joinable o _ t E).
    destruct (tag_of o).
    + intros Hself%bool_decide_eq_false. rewrite decide_False by done.
      by eexists.
    + intros _. by eexists.
  - intros _. rewrite dtor_object_empty by done. eexists.
    repeat split. by rewrite app_nil_r.
Qed.

Lemma foldr_delete_commute n l (m : gmap nat object) :
  foldr delete (delete n m) l = delete n (foldr delete m l).
Proof.
  induction l as [|k l IH]; [done|]. simpl. by rewrite IH, delete_delete.
Qed.

Lemma run_dtors l s :
  NoDup l →
  forallb (live s) l = true →
  forallb (λ n, negb (joins_itself s n)) l = true →
  (run (op_dtor <$> l) s).1 = done
  ∧ objects (run (op_dtor <$> l) s).2 = foldr delete (objects s) l
  ∧ calls (env (run (op_dtor <$> l) s).2)
    = calls (env s) ++ (l ≫= λ n, disposed_by (op_dtor n) s)
  ∧ this_thread (env (run (op_dtor <$> l) s).2) = this_thread (env s)
  ∧ next_object (run (op_dtor <$> l) s).2 = next_object s
  ∧ next_thread (run (op_dtor <$> l) s).2 = next_thread s.
Proof.
  revert s. induction l as [|n l IH]; intros s Hnd Hlive Hself.
  { repeat split. simpl. by rewrite app_nil_r. }
  apply NoDup_cons in Hnd as [Hn Hnd]. simpl in Hlive, Hself.
  apply andb_prop in Hlive as [Hlive_n Hlive].
  apply andb_prop in Hself as [Hself_n%negb_true_iff Hself].
  destruct (step_dtor_returns s n Hlive_n Hself_n) as (w & Hs & Hme & Hc).
  rewrite fmap_cons, run_cons, Hs. simpl returns. cbn [snd].
  set (s1 := set_env w (set_objects (delete n) s)).
  assert (Hlook : ∀ k, k ∈ l → objects s1 !! k = objects s !! k).
  { intros k Hk. simpl. apply lookup_delete_ne. by intros ->. }
  destruct (IH s1 Hnd) as (Hr & Ho & Hc' & Hme' & Hno & Hnt).
  - rewrite forallb_forall in Hlive |- *. intros k Hk.
    unfold live. rewrite Hlook by by apply list_elem_of_In. by apply Hlive.
  - rewrite forallb_forall in Hself |- *. intros k Hk.
    unfold joins_itself. rewrite Hlook by by apply list_elem_of_In.
    change (env s1) with w. rewrite Hme. apply (Hself k Hk).
  - repeat split; try done.
    + rewrite Ho. simpl. apply foldr_delete_commute.
    + rewrite Hc'. change (calls (env s1)) with (calls w).
      rewrite Hc, <- app_assoc, bind_cons. do 2 f_equal.
      assert (Hd : ∀ k, k ∈ l →
                disposed_by (op_dtor k) s1 = disposed_by (op_dtor k) s).
      { intros k Hk. unfold disposed_by. by rewrite Hlook. }
      clear -Hd. induction l as [|k l IH]; [done|].
      rewrite !bind_cons, (Hd k) by (by apply elem_of_cons; left). f_equal.
      apply IH. intros k' Hk'. apply Hd. by apply elem_of_cons; right.
    + by rewrite Hme'.
Qed.

Lemma step_dtor_done s n :
  live s n = true → (step (op_dtor n) s).1 = done →
  ∃ w, step (op_dtor n) s = (done, set_env w (set_objects (delete n) s))
       ∧ calls w = calls (env s) ++ disposed_by (op_dtor n) s.
Proof.
  unfold live. simpl. destruct (objects s !! n) as [o|] eqn:Ho; [intros _|done].
  pose proof (dtor_object_calls o (env s)) as Hc.
  destruct (dtor_object o (env s)) as [[u|e|] w]; simpl; try done.
  intros _. by exists w.
Qed.

Lemma step_dtor_reply s n i : (step (op_dtor n) s).1 ≠ returned i.
Proof.
  simpl. destruct (objects s !! n) as [o|]; [|done].
  by destruct (dtor_object o (env s)) as [[]].
Qed.

Lemma run_dtors_done l s :
  NoDup l →
  forallb (live s) l = true →
  (run (op_dtor <$> l) s).1 = done →
  objects (run (op_dtor <$> l) s).2 = foldr delete (objects s) l
  ∧ calls (env (run (op_dtor <$> l) s).2)
    = calls (env s) ++ (l ≫= λ n, disposed_by (op_dtor n) s).
Proof.
  revert s. induction l as [|n l IH]; intros s Hnd Hlive Hdone.
  { split; [done|]. simpl. by rewrite app_nil_r. }
  apply NoDup_cons in Hnd as [Hn Hnd]. simpl in Hlive.
  apply andb_prop in Hlive as [Hlive_n Hlive].
  rewrite fmap_cons, run_cons in Hdone |- *.
  destruct (returns (step (op_dtor n) s).1) eqn:E;
    [|by rewrite Hdone in E].
  assert (Hr : (step (op_dtor n) s).1 = done).
  { destruct (step (op_dtor n) s).1 as [|i|e| |] eqn:Hr; try done.
    by destruct (step_dtor_reply s n i). }
  destruct (step_dtor_done s n Hlive_n Hr) as (w & Hs & Hc).
  rewrite Hs in Hdone |- *. cbn [snd] in Hdone |- *.
  set (s1 := set_env w (set_objects (delete n) s)) in *.
  assert (Hlook : ∀ k, k ∈ l → objects s1 !! k = objects s !! k).
  { intros k Hk. simpl. apply lookup_delete_ne. by intros ->. }
  destruct (IH s1 Hnd) as (Ho & Hc'); [|done|].
  - rewrite forallb_forall in Hlive |- *. intros k Hk.
    unfold live. rewrite Hlook by by apply list_elem_of_In. by apply Hlive.
  - split.
    + rewrite Ho. simpl. apply foldr_delete_commute.
    + rewrite Hc'. change (calls (env s1)) with (calls w).
      rewrite Hc, <- app_assoc, bind_cons. do 2 f_equal.
      assert (Hd : ∀ k, k ∈ l →
                disposed_by (op_dtor k) s1 = disposed_by (op_dtor k) s).
      { intros k Hk. unfold disposed_by. by rewrite Hlook. }
      clear -Hd. induction l as [|k l IH]; [done|].
      rewrite !bind_cons, (Hd k) by (by apply elem_of_cons; left). f_equal.
      apply IH. intros k' Hk'. apply Hd. by apply elem_of_cons; right.
Qed.

(** X7. Leaving a scope. When distinct live wrappers are destroyed one
    after the other and every destructor returns, exactly these wrappers
    are gone, and the calls made are, in the order of destruction, the call
    of its policy for each wrapper that owned a thread and nothing for the
    others. *)
Theorem scope_exit (l : list nat) (s : state) :
  NoDup l →
  forallb (live s) l = true →
  (run (op_dtor <$> l) s).1 = done →
  objects (run (op_dtor <$> l) s).2 = foldr delete (objects s) l
  ∧ calls (env (run (op_dtor <$> l) s).2)
    = calls (env s) ++ (l ≫= λ n, disposed_by (op_dtor n) s).
Proof. apply run_dtors_done. Qed.

Lemma scope_exit_witness :
  objects (run (op_dtor <$> [1; 3; 0])
             (run [op_ctor join true; op_move 0; op_ctor detach true;
                   op_ctor join false] init).2).2
  = foldr delete
      (objects (run [op_ctor join true; op_move 0; op_ctor detach true;
                     op_ctor join false] init).2) [1; 3; 0]
  ∧ calls (env (run (op_dtor <$> [1; 3; 0])
                  (run [op_ctor join true; op_move 0; op_ctor detach true;
                        op_ctor join false] init).2).2)
    = calls (env (run [op_ctor join true; op_move 0; op_ctor detach true;
                       op_ctor join false] init).2)
      ++ ([1; 3; 0] ≫= λ n,
           disposed_by (op_dtor n)
             (run [op_ctor join true; op_move 0; op_ctor detach true;
                   op_ctor join false] init).2).
Proof.
  apply (scope_exit [1; 3; 0]
           (run [op_ctor join true; op_move 0; op_ctor detach true;
                 op_ctor join false] init).2).
  - apply (bool_decide_unpack _). vm_compute. reflexivity.
  - reflexivity.
  - reflexivity.
Defined.

Lemma moved_from_lt T m k : k < m → moved_from T m !! k = Some (empty_object T).
Proof.
  induction m as [|m IH]; intros Hk; [lia|]. simpl.
  destruct (decide (k = m)) as [->|Hne].
  - by rewrite lookup_insert_eq.
  - rewrite lookup_insert_ne by done. apply IH. lia.
Qed.

Lemma lookup_foldr_delete_elem (m : gmap nat object) l k :
  k ∈ l → foldr delete m l !! k = None.
Proof.
  induction l as [|x l IH]; [by intros ?%elem_of_nil|]. simpl.
  destruct (decide (k = x)) as [->|Hne]; [by rewrite lookup_delete_eq|].
  rewrite lookup_delete_ne by done. intros [?|?]%elem_of_cons; [done|auto].
Qed.

Lemma foldr_delete_all (m : gmap nat object) l :
  (∀ k, is_Some (m !! k) → k ∈ l) → foldr delete m l = ∅.
Proof.
  intros Hl. apply map_empty. intros k.
  destruct (decide (k ∈ l)) as [Hk|Hk]; [by apply lookup_foldr_delete_elem|].
  assert (Hm : m !! k = None).
  { apply eq_None_not_Some. intros H. by apply Hk, Hl. }
  clear Hl. induction l as [|x l IH]; [done|]. simpl.
  apply not_elem_of_cons in Hk as [Hne Hk].
  rewrite lookup_delete_ne by done. by apply IH.
Qed.

Lemma bind_single {A} (f : nat → list A) l m :
  NoDup l → m ∈ l → (∀ k, k ∈ l → k ≠ m → f k = []) → l ≫= f = f m.
Proof.
  induction l as [|x l IH]; [by intros _ ?%elem_of_nil|].
  intros [Hx Hnd]%NoDup_cons Hm Hf. rewrite bind_cons.
  destruct (decide (x = m)) as [->|Hne].
  - assert (Hnil : l ≫= f = []).
    { clear IH Hnd Hm. induction l as [|y l IH]; [done|].
      apply not_elem_of_cons in Hx as [Hy Hx].
      rewrite bind_cons, (Hf y); [|by apply elem_of_cons; right; left|done].
      simpl. apply IH; [done|]. intros k Hk. apply Hf.
      apply elem_of_cons in Hk as [->|Hk]; apply elem_of_cons; [by left|].
      right. by apply elem_of_cons; right. }
    by rewrite Hnil, app_nil_r.
  - rewrite (Hf x); [|by apply elem_of_cons; left|done]. simpl.
    apply elem_of_cons in Hm as [Hm|Hm]; [done|].
    apply IH; [done..|]. intros k Hk. apply Hf. by apply elem_of_cons; right.
Qed.

(** X8. A thread wrapped and moved through [m] further owners gets exactly
    one call, the call of its policy, in whatever order the [m + 1]
    wrappers are then destroyed; and when every destructor has returned no
    wrapper is left. *)
Theorem chain_any_order (T : tag) (m : nat) (order : list nat) :
  order ≡ₚ seq 0 (S m) →
  calls
    (env (run (op_ctor T true :: (op_move <$> seq 0 m) ++ (op_dtor <$> order))
            init).2)
  = [disposal T 1]
  ∧ ((run (op_ctor T true :: (op_move <$> seq 0 m) ++ (op_dtor <$> order)) init).1
     = done →
     objects
       (run (op_ctor T true :: (op_move <$> seq 0 m) ++ (op_dtor <$> order)) init).2
     = ∅).
Proof.
  intros Hperm. rewrite app_comm_cons, run_app, chain_moves. simpl returns.
  cbn [snd].
  set (s := State (<[m:=owner_object T 1]> (moved_from T m)) (S m) 2 (World 0 ∅ [])).
  assert (Hin : ∀ k, k ∈ order ↔ k ≤ m).
  { intros k. rewrite Hperm, elem_of_seq. lia. }
  assert (Hnd : NoDup order) by (rewrite Hperm; apply NoDup_seq).
  assert (Hm : objects s !! m = Some (owner_object T 1)).
  { simpl. by rewrite lookup_insert_eq. }
  assert (Hk : ∀ k, k < m → objects s !! k = Some (empty_object T)).
  { intros k Hlt. simpl. rewrite lookup_insert_ne by lia. by apply moved_from_lt. }
  assert (Hcases : ∀ k, k ≤ m → k = m ∨ k < m) by lia.
  destruct (run_dtors order s Hnd) as (Hr & Ho & Hc & _).
  - apply forallb_forall. intros k Hk'%list_elem_of_In%Hin%Hcases.
    unfold live. destruct Hk' as [Heq|Hlt].
    + by rewrite Heq, Hm.
    + by rewrite Hk.
  - apply forallb_forall. intros k Hk'%list_elem_of_In%Hin%Hcases.
    unfold joins_itself. destruct Hk' as [Heq|Hlt].
    + rewrite Heq, Hm. by destruct T.
    + rewrite Hk by done. by destruct T.
  - split.
    + rewrite Hc. change (calls (env s)) with (@nil event). rewrite app_nil_l.
      rewrite (bind_single _ order m Hnd).
      * unfold disposed_by. rewrite Hm. by destruct T.
      * by apply Hin.
      * intros k Hk'%Hin Hne. unfold disposed_by. rewrite Hk by lia.
        by destruct T.
    + intros _. rewrite Ho. apply foldr_delete_all. intros k [o Hko].
      apply Hin. destruct (decide (k ≤ m)) as [|Hgt]; [done|].
      simpl in Hko. rewrite lookup_insert_ne, moved_from_ge in Hko by lia. done.
Qed.

Lemma chain_any_order_witness :
  calls
    (env (run (op_ctor join true :: (op_move <$> seq 0 3)
                 ++ (op_dtor <$> [2; 0; 3; 1])) init).2)
  = [disposal join 1]
  ∧ ((run (op_ctor join true :: (op_move <$> seq 0 3) ++ (op_dtor <$> [2; 0; 3; 1]))
        init).1 = done →
     objects
       (run (op_ctor join true :: (op_move <$> seq 0 3) ++ (op_dtor <$> [2; 0; 3; 1]))
          init).2 = ∅).
Proof.
  apply (chain_any_order join 3 [2; 0; 3; 1]).
  apply (bool_decide_unpack _). vm_compute. reflexivity.
Defined.

(** ** Ownership, once more *)

(** X9. Between the operations of a program every thread started so far
    is in one of two situations: exactly one live wrapper owns it and no
    call has been made on it, or no wrapper owns it and exactly one call
    has been made on it. A thread that has not been started, and the main
    thread, have no owner and no call. *)
Theorem every_thread_accounted (s : state) (t : tid) :
  reachable s →
  (1 ≤ t < next_thread s →
   (∃ n, view_of s n = Joinable t
         ∧ (∀ n', view_of s n' = Joinable t → n' = n)
         ∧ calls_on t (env s) = [])
   ∨ ((∀ n, view_of s n ≠ Joinable t) ∧ length (calls_on t (env s)) = 1))
  ∧ (t = 0 ∨ next_thread s ≤ t →
     (∀ n, view_of s n ≠ Joinable t) ∧ calls_on t (env s) = []).
Proof.
  intros Hwf%reachable_wf. split.
  - intros Ht. destruct (wf_accounted s Hwf t Ht) as [[n Hn]|Hone].
    + left. exists n. repeat split; [done| |by apply (wf_undisposed s Hwf n)].
      intros n' Hn'. by apply (wf_one_owner s Hwf n' n t).
    + right. split; [|done]. intros n Hn.
      by rewrite (wf_undisposed s Hwf n t Hn) in Hone.
  - intros Ht. split.
    + intros n Hn. pose proof (wf_started s Hwf n t Hn). lia.
    + apply calls_on_none. intros (e & He & Hin)%list_elem_of_fmap.
      pose proof (wf_calls_started s Hwf e Hin). lia.
Qed.

Lemma every_thread_accounted_witness :
  (∃ n, view_of (run [op_ctor join true; op_ctor detach true; op_move 0;
                      op_dtor 1] init).2 n = Joinable 1
        ∧ (∀ n', view_of (run [op_ctor join true; op_ctor detach true; op_move 0;
                               op_dtor 1] init).2 n' = Joinable 1 → n' = n)
        ∧ calls_on 1 (env (run [op_ctor join true; op_ctor detach true; op_move 0;
                                op_dtor 1] init).2) = [])
  ∨ ((∀ n, view_of (run [op_ctor join true; op_ctor detach true; op_move 0;
                         op_dtor 1] init).2 n ≠ Joinable 1)
     ∧ length (calls_on 1 (env (run [op_ctor join true; op_ctor detach true;
                                     op_move 0; op_dtor 1] init).2)) = 1).
Proof.
  destruct (every_thread_accounted
              (run [op_ctor join true; op_ctor detach true; op_move 0; op_dtor 1]
                 init).2 1) as [H _].
  - exists [op_ctor join true; op_ctor detach true; op_move 0; op_dtor 1].
    split; reflexivity.
  - apply H. vm_compute. lia.
Defined.

Lemma touches_false k c : touches k c = false → c ≠ op_move k ∧ c ≠ op_dtor k.
Proof.
  destruct c as [T b | src | n | n | t]; simpl; try done;
    intros H%bool_decide_eq_false; split; congruence.
Qed.

(** X10. A wrapper keeps its handle and its class for as long as the
    program neither moves out of it nor destroys it: constructions, moves
    and destructions of other wrappers, calls of [get_id] on any wrapper,
    and the end of the program by [std::terminate] leave it as it is. *)
Theorem untouched_wrapper_is_unchanged (s : state) (k : nat) (o : object)
    (q : list op) :
  reachable s →
  objects s !! k = Some o →
  forallb (λ c, negb (touches k c)) q = true →
  objects (run q s).2 !! k = Some o.
Proof.
  intros Hwf%reachable_wf. revert s Hwf.
  induction q as [|c q IH]; intros s Hwf Hk Hq; [done|].
  simpl in Hq. apply andb_prop in Hq as [[Hm Hd]%negb_true_iff%touches_false Hq].
  pose proof (step_frame c s k o Hwf Hk Hm Hd) as Hstep.
  rewrite run_cons. destruct (returns (step c s).1) eqn:E; [|done].
  apply IH; [by apply wf_step|done..].
Qed.

Lemma untouched_wrapper_is_unchanged_witness :
  objects (run [op_ctor detach true; op_get_id 1; op_move 0; op_dtor 0; op_dtor 3]
             (run [op_ctor join true; op_move 0] init).2).2 !! 1
  = Some (owner_object join 1).
Proof.
  apply (untouched_wrapper_is_unchanged (run [op_ctor join true; op_move 0] init).2).
  - exists [op_ctor join true; op_move 0]. split; reflexivity.
  - reflexivity.
  - reflexivity.
Defined.

(** ** The constructor *)

